(** * rvtests: collapsing transforms and summary statistics

    A shallow embedding of [src/ModelFitter.cpp] (allele-frequency
    estimators and the collapsing family) and of [Summary.h] (the
    nearest-rank summary and the report header accumulator).

    Numeric model.  A C++ [double] is an exact rational ([Q]): rounding,
    NaN and the infinities are outside the model, so every statement below
    is about the decision logic of the code.  Division is that of [Q]
    (a quotient by zero is 0, where IEEE gives an infinity or NaN); the
    theorems never rely on it.  The cast of a double to [int] has the
    32-bit range of [int] (see [int_of_double]).  [int] counters are
    integers ([Z]) without wrap-around; signed overflow is undefined in the
    source and cannot occur while a matrix has fewer than 2^30 rows.
    Dimensions and loop counters that only ever count upwards from zero
    are [nat]. *)

From Stdlib Require Import String DecimalString.
From Stdlib Require Import QArith Qround ZArith List Bool Lia Lqa.
From Stdlib Require Import Sorting.Sorted Sorting.Permutation.
Import ListNotations.

Local Open Scope Q_scope.

(** ** Numbers *)

(** Truncation toward zero: the value of a conversion from double to an
    integer type that can hold it. *)
Definition truncate (x : Q) : Z := Z.quot (Qnum x) (Zpos (Qden x)).

Definition INT_MIN : Z := (- 2147483648)%Z.
Definition INT_MAX : Z := 2147483647%Z.

(** [(int) x] for a double [x]: truncation toward zero when the truncated
    value is in the range of the 32-bit [int].  Outside that range the
    conversion is undefined in C++; the compiled code (the x86-64
    conversion instruction) yields [INT_MIN] there, and so does the
    model. *)
Definition int_of_double (x : Q) : Z :=
  let t := truncate x in
  if (INT_MIN <=? t)%Z && (t <=? INT_MAX)%Z then t else INT_MIN.

(** Implicit conversion of an [int] to [double]. *)
Definition double_of_int (z : Z) : Q := inject_Z z.

Definition Qlt_bool (x y : Q) : bool := negb (Qle_bool y x).

(** ** The Matrix and Vector containers

    Only the interface the code uses is modelled: the public [rows] and
    [cols] fields, cell access [m[p][c]], [Dimension], [Zero] and
    [GetColumnLabel].  Cells are a total map from (row, column) to value;
    an access outside [rows] x [cols] is undefined in the source, and the
    model answers it with whatever the map holds there. *)

Record Matrix : Type := mkMatrix {
  rows : nat;
  cols : nat;
  elem : nat -> nat -> Q;
  GetColumnLabel : nat -> string
}.

Record Vector : Type := mkVector {
  dim : nat;
  velem : nat -> Q
}.

Declare Scope mat_scope.
Delimit Scope mat_scope with mat.
Notation "m @[ p , c ]" := (elem m p c)
  (at level 1, p at level 200, c at level 200, left associativity,
   format "m @[ p ,  c ]") : mat_scope.
Notation "v @[ p ]" := (velem v p)
  (at level 1, p at level 200, left associativity,
   format "v @[ p ]") : mat_scope.
Local Open Scope mat_scope.

(** Assignment to the cell [m[p][c]]. *)
Definition Matrix_set (m : Matrix) (p c : nat) (v : Q) : Matrix :=
  {| rows := rows m;
     cols := cols m;
     elem := fun i j => if (i =? p)%nat && (j =? c)%nat then v else elem m i j;
     GetColumnLabel := GetColumnLabel m |}.

(** [m->Dimension(r, c)] *)
Definition Dimension (m : Matrix) (r c : nat) : Matrix :=
  {| rows := r; cols := c; elem := elem m; GetColumnLabel := GetColumnLabel m |}.

(** [m->Zero()] *)
Definition Zero (m : Matrix) : Matrix :=
  {| rows := rows m; cols := cols m; elem := fun _ _ => 0;
     GetColumnLabel := GetColumnLabel m |}.

(** Builders used to write concrete inputs. *)
Definition Matrix_of_rows (l : list (list Q)) : Matrix :=
  {| rows := length l;
     cols := match l with [] => 0 | r :: _ => length r end;
     elem := fun p c => nth c (nth p l []) 0;
     GetColumnLabel := fun _ => EmptyString |}.

Definition Vector_of_list (l : list Q) : Vector :=
  {| dim := length l; velem := fun p => nth p l 0 |}.

(** [for (int i = 0; i < n; i++) body(i)] threading a state. *)
Definition for_loop {S : Type} (n : nat) (body : S -> nat -> S) (s : S) : S :=
  fold_left body (seq 0 n) s.

Module ModelFitter.

(** *** Allele-frequency estimators *)

(** One iteration of the loop of [getMarkerFrequency]; the state is
    [(ac, an)]. *)
Definition freq_step (inp : Matrix) (col : nat) (s : Q * Z) (p : nat) : Q * Z :=
  let '(ac, an) := s in
  if (0 <=? int_of_double inp@[p, col])%Z
  then (ac + inp@[p, col], (an + 2)%Z)
  else (ac, an).

Definition getMarkerFrequency (inp : Matrix) (col : nat) : Q :=
  let numPeople := rows inp in
  let '(ac, an) := for_loop numPeople (freq_step inp col) (0, 0%Z) in
  if (an =? 0)%Z then 0
  else
    let freq := ac / double_of_int an in
    freq.

(** One iteration of the loop of [getMarkerFrequencyFromControl]. *)
Definition freq_control_step (inp : Matrix) (pheno : Vector) (col : nat)
    (s : Q * Z) (p : nat) : Q * Z :=
  let '(ac, an) := s in
  if Qeq_bool pheno@[p] 1 then (ac, an)
  else if Qle_bool 0 inp@[p, col]
       then (ac + inp@[p, col], (an + 2)%Z)
       else (ac, an).

Definition getMarkerFrequencyFromControl (inp : Matrix) (pheno : Vector)
    (col : nat) : Q :=
  let numPeople := rows inp in
  let '(ac, an) := for_loop numPeople (freq_control_step inp pheno col) (0, 0%Z) in
  let freq := 1 * (ac + 1) / double_of_int (an + 2) in
  freq.

(** *** Collapsing methods *)

(** Does the truncated genotype of sample [p] at marker [m] pass the test
    [g > 0] of the CMC and Morris-Zeggini loops? *)
Definition nonref (inp : Matrix) (p m : nat) : bool :=
  let g := int_of_double inp@[p, m] in
  (0 <? g)%Z.

(** The marker loop of [cmcCollapse] for one sample [p], with its [break].
    [ms] lists the marker columns in the order they are visited:
    [0 .. numMarker-1] for the two-argument overload, [index[0]],
    [index[1]], ... for the indexed overload. *)
Fixpoint cmc_scan (inp : Matrix) (p : nat) (ms : list nat) (out : Matrix)
    (outIndex : nat) : Matrix :=
  match ms with
  | [] => out
  | m :: ms' =>
      if nonref inp p m then Matrix_set out p outIndex 1
      else cmc_scan inp p ms' out outIndex
  end.

Definition cmcCollapse (inp : Matrix) (out : Matrix) : Matrix :=
  let numPeople := rows inp in
  let numMarker := cols inp in
  let out := Dimension out numPeople 1 in
  let out := Zero out in
  for_loop numPeople
    (fun out p => cmc_scan inp p (seq 0 numMarker) out 0) out.

(** The indexed overload.  [None] is a failed [assert] on the shape of
    [out]. *)
Definition cmcCollapse_index (inp : Matrix) (index : list nat) (out : Matrix)
    (outIndex : nat) : option Matrix :=
  let numPeople := rows inp in
  if negb (rows out =? numPeople)%nat then None
  else if negb (outIndex <? cols out)%nat then None
  else Some (for_loop numPeople
               (fun out p => cmc_scan inp p index out outIndex) out).

Definition zeggini_step (inp : Matrix) (p : nat) (out : Matrix) (m : nat)
    : Matrix :=
  if nonref inp p m then Matrix_set out p 0 (out@[p, 0] + 1) else out.

Definition zegginiCollapse (inp : Matrix) (out : Matrix) : Matrix :=
  let numPeople := rows inp in
  let numMarker := cols inp in
  let out := Dimension out numPeople 1 in
  let out := Zero out in
  for_loop numPeople
    (fun out p => for_loop numMarker (zeggini_step inp p) out) out.

(** [out[p][0] += genotype[p][m] * weight] *)
Definition add_weighted (genotype : Matrix) (m : nat) (weight : Q)
    (out : Matrix) (p : nat) : Matrix :=
  Matrix_set out p 0 (out@[p, 0] + genotype@[p, m] * weight).

(** [freq <= 0.0 || freq >= 1.0] *)
Definition degenerate (freq : Q) : bool := Qle_bool freq 0 || Qle_bool 1 freq.

Section Weighted.

(** [sqrt] of <cmath>, a parameter of the weighted methods. *)
Variable sqrt : Q -> Q.

Definition madsonBrowningCollapse (genotype : Matrix) (phenotype : Vector)
    (out : Matrix) : Matrix :=
  let numPeople := rows genotype in
  let numMarker := cols genotype in
  let out := Dimension out numPeople 1 in
  let out := Zero out in
  for_loop numMarker
    (fun out m =>
       let freq := getMarkerFrequencyFromControl genotype phenotype m in
       if degenerate freq then out
       else
         let weight :=
           1 / sqrt (freq * (1 - freq)
                     * double_of_int (Z.of_nat (rows genotype))) in
         for_loop numPeople (add_weighted genotype m weight) out)
    out.

Definition fpCollapse (inp : Matrix) (out : Matrix) : Matrix :=
  let numPeople := rows inp in
  let numMarker := cols inp in
  let out := Dimension out numPeople 1 in
  let out := Zero out in
  for_loop numMarker
    (fun out m =>
       let freq := getMarkerFrequency inp m in
       if degenerate freq then out
       else
         let weight := 1 / sqrt (freq * (1 - freq)) in
         for_loop numPeople (add_weighted inp m weight) out)
    out.

(** The overload taking the genotype matrix by pointer. *)
Definition madsonBrowningCollapse_ptr (d : Matrix) (out : Matrix) : Matrix :=
  let inp := d in
  let numPeople := rows inp in
  let numMarker := cols inp in
  let out := Dimension out numPeople 1 in
  let out := Zero out in
  for_loop numMarker
    (fun out m =>
       let freq := getMarkerFrequency inp m in
       if degenerate freq then out
       else
         let weight := 1 / sqrt (freq * (1 - freq)) in
         for_loop numPeople (add_weighted inp m weight) out)
    out.

End Weighted.

(** *** Grouping by frequency *)

(** [std::map<double, std::vector<int> >]: keys kept in increasing order,
    one entry per key. *)
Definition FreqMap : Type := list (Q * list nat).

(** [group[k].push_back(i)]: [operator[]] creates an empty vector for a
    key that is not there yet. *)
Fixpoint push_at (k : Q) (i : nat) (group : FreqMap) : FreqMap :=
  match group with
  | [] => [(k, [i])]
  | (k', l) :: rest =>
      if Qeq_bool k k' then (k', l ++ [i]) :: rest
      else if Qle_bool k k' then (k, [i]) :: group
      else (k', l) :: push_at k i rest
  end.

Definition groupFrequency (freq : list Q) (group : FreqMap) : FreqMap :=
  let group : FreqMap := [] in
  for_loop 0 (fun group i => push_at (nth i freq 0) i group) group.

End ModelFitter.

(** ** Summary.h *)

Module SummaryH.

(** [std::sort] on a copy of the observations, as an insertion sort. *)
Fixpoint insert (x : Q) (l : list Q) : list Q :=
  match l with
  | [] => [x]
  | y :: l' => if Qle_bool x y then x :: l else y :: insert x l'
  end.

Fixpoint sort (l : list Q) : list Q :=
  match l with
  | [] => []
  | x :: l' => insert x (sort l')
  end.

Record Summary : Type := mkSummary {
  min : Q;
  q1 : Q;
  median : Q;
  q3 : Q;
  max : Q;
  mean : Q;
  sd : Q;
  n : Z
}.

(** The default constructor. *)
Definition Summary_new : Summary := mkSummary 0 0 0 0 0 0 0 0%Z.

(** [t[i]] for a double index expression [i]: the index is converted to
    the index type by truncation. *)
Definition at_double (t : list Q) (i : Q) : Q :=
  nth (Z.to_nat (truncate i)) t 0.

Record SummaryHeader : Type := mkSummaryHeader {
  phenoLabel : list string;
  pheno : list Summary;
  transformedPheno : Summary;
  inverseNormalized : bool;
  covLabel : list string;
  cov : list Summary
}.

Definition SummaryHeader_new : SummaryHeader :=
  mkSummaryHeader [] [] Summary_new false [] [].

(** A small error monad: [None] is an out-of-bounds read. *)
Definition bind {A B : Type} (x : option A) (f : A -> option B) : option B :=
  match x with
  | Some a => f a
  | None => None
  end.

Notation "x <- c1 ;; c2" := (bind c1 (fun x => c2))
  (at level 61, c1 at next level, right associativity).

(** [for (int i = 0; i < n; ++i)] with a body that can fail. *)
Fixpoint for_each {S : Type} (body : S -> nat -> option S) (l : list nat)
    (s : S) : option S :=
  match l with
  | [] => Some s
  | i :: l' => s' <- body s i ;; for_each body l' s'
  end.

Section Statistics.

(** [calculateMean] and [calculateSampleSD] come from CommonFunction.h,
    which is not part of the sources at hand: parameters. *)
Variable calculateMean : list Q -> Q.
Variable calculateSampleSD : list Q -> Q.

(** [Summary::add].  Every field of the receiver is overwritten.  On an
    empty vector [t[0]] reads out of bounds: [None]. *)
Definition add (self : Summary) (v : list Q) : option Summary :=
  let n := Z.of_nat (List.length v) in
  let t := sort v in
  match t with
  | [] => None
  | _ :: _ =>
      Some {| n := n;
              min := nth 0 t 0;
              q1 := at_double t (double_of_int n * (1 # 4));
              median := at_double t (double_of_int n * (1 # 2));
              q3 := at_double t (double_of_int n * (3 # 4));
              max := nth (Z.to_nat (n - 1)) t 0;
              mean := calculateMean v;
              sd := calculateSampleSD v |}
  end.

Definition recordPhenotype (self : SummaryHeader) (label : string)
    (ph : list Q) : option SummaryHeader :=
  let phenoLabel' := phenoLabel self ++ [label] in
  s <- add Summary_new ph ;;
  Some {| phenoLabel := phenoLabel';
          pheno := pheno self ++ [s];
          transformedPheno := transformedPheno self;
          inverseNormalized := inverseNormalized self;
          covLabel := covLabel self;
          cov := cov self |}.

Definition setInverseNormalize (self : SummaryHeader) (b : bool)
    : SummaryHeader :=
  {| phenoLabel := phenoLabel self;
     pheno := pheno self;
     transformedPheno := transformedPheno self;
     inverseNormalized := b;
     covLabel := covLabel self;
     cov := cov self |}.

Definition recordCovariateColumn (self : SummaryHeader) (m : Matrix)
    (col : nat) : option SummaryHeader :=
  let nr := rows m in
  let v := map (fun i => m@[i, col]) (seq 0 nr) in
  s <- add Summary_new v ;;
  Some {| phenoLabel := phenoLabel self;
          pheno := pheno self;
          transformedPheno := transformedPheno self;
          inverseNormalized := inverseNormalized self;
          covLabel := covLabel self;
          cov := cov self ++ [s] |}.

Definition push_covLabel (self : SummaryHeader) (label : string)
    : SummaryHeader :=
  {| phenoLabel := phenoLabel self;
     pheno := pheno self;
     transformedPheno := transformedPheno self;
     inverseNormalized := inverseNormalized self;
     covLabel := covLabel self ++ [label];
     cov := cov self |}.

Definition clear_cov (self : SummaryHeader) : SummaryHeader :=
  {| phenoLabel := phenoLabel self;
     pheno := pheno self;
     transformedPheno := transformedPheno self;
     inverseNormalized := inverseNormalized self;
     covLabel := [];
     cov := [] |}.

Definition recordCovariate (self : SummaryHeader) (m : Matrix)
    : option SummaryHeader :=
  let nc := cols m in
  let self := clear_cov self in
  for_each
    (fun self i =>
       recordCovariateColumn (push_covLabel self (GetColumnLabel m i)) m i)
    (seq 0 nc) self.

End Statistics.

End SummaryH.

(** ** The report header as text *)

Notation "a +++ b" := (String.append a b) (at level 60, right associativity).

Module Report.

Import SummaryH.

Definition tab : string := String (Ascii.ascii_of_nat 9) EmptyString.
Definition newline : string := String (Ascii.ascii_of_nat 10) EmptyString.

Section Format.

(** [FileWriter] comes from base/IO.h, which is not part of the sources at
    hand.  The writer is the text written so far; [write] and [printf]
    append to it.  The conversions [%d] and [%g] of [printf] are
    parameters. *)
Variable fmt_d : Z -> string.
Variable fmt_g : Q -> string.

(** One [printf] of the form ["##Key=%d\n"]. *)
Definition count_line (key : string) (nSample : Z) : string :=
  key +++ fmt_d nSample +++ newline.

(** The column titles written after [title]. *)
Definition table_header (title : string) : string :=
  title +++ tab +++ "min" +++ tab +++ "25th" +++ tab +++ "median" +++ tab
  +++ "75th" +++ tab +++ "max" +++ tab +++ "mean" +++ tab +++ "variance"
  +++ newline.

(** One [printf] of a table row; the last column is [sd * sd]. *)
Definition summary_row (label : string) (s : Summary) : string :=
  "##" +++ label +++ tab +++ fmt_g (min s) +++ tab +++ fmt_g (q1 s) +++ tab
  +++ fmt_g (median s) +++ tab +++ fmt_g (q3 s) +++ tab +++ fmt_g (max s)
  +++ tab +++ fmt_g (mean s) +++ tab +++ fmt_g (sd s * sd s) +++ newline.

(** The row loops: [labels[i]] may read out of bounds ([None]), [ss[i]]
    may not, [i] stays below [ss.size()]. *)
Definition write_row (labels : list string) (ss : list Summary) (fp : string)
    (i : nat) : option string :=
  label <- nth_error labels i ;;
  s <- nth_error ss i ;;
  Some (fp +++ summary_row label s).

(** The body of the loop that joins the covariate labels with commas. *)
Definition write_label (labels : list string) (fp : string) (i : nat)
    : option string :=
  let fp := if (i =? 0)%nat then fp else fp +++ "," in
  label <- nth_error labels i ;;
  Some (fp +++ label).

Definition outputHeader (self : SummaryHeader) (fp : string) : option string :=
  let nSample := match pheno self with [] => 0%Z | s :: _ => n s end in
  let fp := fp +++ count_line "##Samples=" nSample in
  let fp := fp +++ count_line "##AnalyzedSamples=" nSample in
  let fp := fp +++ count_line "##Families=" nSample in
  let fp := fp +++ count_line "##AnalyzedFamilies=" nSample in
  let fp := fp +++ count_line "##Founders=" nSample in
  let fp := fp +++ count_line "##AnalyzedFounders=" nSample in
  let fp := fp +++ "##InverseNormal="
               +++ (if inverseNormalized self then "ON" else "OFF")
               +++ newline in
  let fp := fp +++ table_header "##TraitSummary" in
  fp <- for_each (write_row (phenoLabel self) (pheno self))
          (seq 0 (List.length (pheno self))) fp ;;
  match cov self with
  | [] => Some fp
  | _ :: _ =>
      let fp := fp +++ "##Covariates=" in
      fp <- for_each (write_label (covLabel self))
              (seq 0 (List.length (cov self))) fp ;;
      let fp := fp +++ newline in
      let fp := fp +++ table_header "##CovariateSummary" in
      for_each (write_row (covLabel self) (cov self))
        (seq 0 (List.length (cov self))) fp
  end.

End Format.

End Report.

(** ** Vocabulary of the specification *)

Import ModelFitter SummaryH.

(** A rational stand-in for [sqrt], used to run the weighted methods on
    concrete inputs: the square root rounded down to a multiple of 2^-53,
    exact on every rational square whose root has that precision. *)
Definition Qsqrt (x : Q) : Q :=
  let s := (2 ^ 53)%positive in
  Z.sqrt (Qnum x * Zpos (Qden x) * Zpos s * Zpos s) # (Qden x * s).

(** The genotype test in the words of the specification: a value above 0. *)
Definition above_zero (inp : Matrix) (p m : nat) : bool :=
  Qlt_bool 0 inp@[p, m].

(** The test of the code in terms of the genotype itself: at least 1 and
    below 2^31, the end of the range of [int]. *)
Definition carrier (inp : Matrix) (p m : nat) : bool :=
  Qle_bool 1 inp@[p, m] && Qlt_bool inp@[p, m] 2147483648.

Definition count_carrier (inp : Matrix) (p : nat) (ms : list nat) : nat :=
  List.length (filter (carrier inp p) ms).

(** How many of the markers [ms] pass the test of the code ([nonref]) and
    the test of the specification ([above_zero]) for sample [p]. *)
Definition count_nonref (inp : Matrix) (p : nat) (ms : list nat) : nat :=
  List.length (filter (nonref inp p) ms).

Definition count_above_zero (inp : Matrix) (p : nat) (ms : list nat) : nat :=
  List.length (filter (above_zero inp p) ms).

(** Sum of [f m] over the markers [ms]. *)
Definition Qsum (f : nat -> Q) (ms : list nat) : Q :=
  fold_right (fun m acc => f m + acc) 0 ms.

(** The weight a marker carries in the weighted sums: zero for a skipped
    marker (degenerate frequency), the reciprocal square root otherwise. *)
Definition weight_control (sqrt : Q -> Q) (genotype : Matrix)
    (phenotype : Vector) (m : nat) : Q :=
  let freq := getMarkerFrequencyFromControl genotype phenotype m in
  if degenerate freq then 0
  else 1 / sqrt (freq * (1 - freq)
                 * double_of_int (Z.of_nat (rows genotype))).

Definition weight_uncond (sqrt : Q -> Q) (inp : Matrix) (m : nat) : Q :=
  let freq := getMarkerFrequency inp m in
  if degenerate freq then 0 else 1 / sqrt (freq * (1 - freq)).

(** The observations [recordCovariateColumn] copies out of column [col]. *)
Definition column (m : Matrix) (col : nat) : list Q :=
  map (fun i => m@[i, col]) (seq 0 (rows m)).

(** An output matrix to start from in examples (any matrix will do where
    the method resizes and zeroes it). *)
Definition empty_matrix : Matrix := Matrix_of_rows [].

(** Modelled from the spec: [calculateMean] of CommonFunction.h, which is
    not among the sources; the arithmetic mean of the observations. *)
Definition arithmetic_mean (v : list Q) : Q :=
  fold_right Qplus 0 v / inject_Z (Z.of_nat (List.length v)).

(** Modelled from the spec: [calculateSampleSD] of CommonFunction.h, which
    is not among the sources; the standard deviation with the n-1
    denominator, its square root taken by [Qsqrt]. *)
Definition sample_sd (v : list Q) : Q :=
  let mu := arithmetic_mean v in
  Qsqrt (fold_right (fun x acc => (x - mu) * (x - mu) + acc) 0 v
         / inject_Z (Z.of_nat (List.length v) - 1)).

(** A covariate matrix with the single column AGE. *)
Definition age_matrix : Matrix :=
  {| rows := 4; cols := 1;
     elem := elem (Matrix_of_rows [[10]; [20]; [30]; [40]]);
     GetColumnLabel := fun _ => "AGE"%string |}.

(** A header that already holds a phenotype and two covariates. *)
Definition used_header : SummaryHeader :=
  {| phenoLabel := ["Y"%string];
     pheno := [Summary_new];
     transformedPheno := Summary_new;
     inverseNormalized := true;
     covLabel := ["SEX"%string; "PC1"%string];
     cov := [Summary_new; Summary_new] |}.

(** The samples the two estimators take into account: those whose
    truncated genotype is not negative, and the controls (phenotype other
    than 1) whose genotype is not negative. *)
Definition counted (inp : Matrix) (col : nat) (p : nat) : bool :=
  (0 <=? int_of_double inp@[p, col])%Z.

Definition informative (inp : Matrix) (pheno : Vector) (col : nat) (p : nat)
    : bool :=
  negb (Qeq_bool pheno@[p] 1) && Qle_bool 0 inp@[p, col].

(** The test of [getMarkerFrequency] in terms of the genotype itself: the
    cast to [int] is 0 or more exactly for a genotype above -1 and below
    2^31. *)
Definition present (inp : Matrix) (col : nat) (p : nat) : bool :=
  Qlt_bool (-1) inp@[p, col] && Qlt_bool inp@[p, col] 2147483648.

Import Report.

(** Concatenation of the pieces [l]. *)
Definition cat (l : list string) : string := fold_right String.append EmptyString l.

Section ReportText.

Variable fmt_d : Z -> string.
Variable fmt_g : Q -> string.

(** The table rows for the summaries [ss] labelled by [labels]. *)
Definition rows_text (labels : list string) (ss : list Summary) : string :=
  cat (map (fun ls => summary_row fmt_g (fst ls) (snd ls)) (combine labels ss)).

(** The text of the whole report of a header. *)
Definition report (h : SummaryHeader) : string :=
  let nSample := match pheno h with [] => 0%Z | s :: _ => n s end in
  count_line fmt_d "##Samples=" nSample
  +++ count_line fmt_d "##AnalyzedSamples=" nSample
  +++ count_line fmt_d "##Families=" nSample
  +++ count_line fmt_d "##AnalyzedFamilies=" nSample
  +++ count_line fmt_d "##Founders=" nSample
  +++ count_line fmt_d "##AnalyzedFounders=" nSample
  +++ ("##InverseNormal=" +++ (if inverseNormalized h then "ON" else "OFF")
       +++ newline)
  +++ table_header "##TraitSummary"
  +++ rows_text (phenoLabel h) (pheno h)
  +++ match cov h with
      | [] => EmptyString
      | _ :: _ =>
          "##Covariates="
          +++ String.concat "," (firstn (List.length (cov h)) (covLabel h))
          +++ newline
          +++ table_header "##CovariateSummary"
          +++ rows_text (covLabel h) (cov h)
      end.

End ReportText.

(** A header on which each of the three recording operations has run. *)
Definition recorded_header : option SummaryHeader :=
  h <- recordPhenotype arithmetic_mean sample_sd SummaryHeader_new "Y"
         [3; 1; 2; 4] ;;
  recordCovariate arithmetic_mean sample_sd (setInverseNormalize h true)
    age_matrix.

(** Labels and summaries go in pairs. *)
Definition in_step (h : SummaryHeader) : Prop :=
  List.length (phenoLabel h) = List.length (pheno h) /\
  List.length (covLabel h) = List.length (cov h).

(** Headers built from a new one with [recordPhenotype],
    [setInverseNormalize] and [recordCovariate]. *)
Inductive built (calculateMean calculateSampleSD : list Q -> Q)
    : SummaryHeader -> Prop :=
| built_new : built calculateMean calculateSampleSD SummaryHeader_new
| built_phenotype h label ph h' :
    built calculateMean calculateSampleSD h ->
    recordPhenotype calculateMean calculateSampleSD h label ph = Some h' ->
    built calculateMean calculateSampleSD h'
| built_flag h b :
    built calculateMean calculateSampleSD h ->
    built calculateMean calculateSampleSD (setInverseNormalize h b)
| built_covariate h m h' :
    built calculateMean calculateSampleSD h ->
    recordCovariate calculateMean calculateSampleSD h m = Some h' ->
    built calculateMean calculateSampleSD h'.

(** Stand-ins for the conversions [%d] and [%g], used to run the report on
    concrete headers: decimal digits, and a fraction in lowest terms. *)
Definition print_d (z : Z) : string := NilZero.string_of_int (Z.to_int z).

Definition print_g (q : Q) : string :=
  let r := Qred q in
  match Qden r with
  | 1%positive => print_d (Qnum r)
  | d => print_d (Qnum r) +++ "/" +++ print_d (Zpos d)
  end.

(** ** Loops and cells *)

Lemma for_loop_invariant {S : Type} (P : S -> Prop) (n : nat)
    (body : S -> nat -> S) (s : S) :
  P s ->
  (forall s' i, (i < n)%nat -> P s' -> P (body s' i)) ->
  P (for_loop n body s).
Proof.
  unfold for_loop. intros Hs Hstep.
  assert (Hin : forall i, In i (seq 0 n) -> (i < n)%nat)
    by (intros i Hi; apply in_seq in Hi; lia).
  revert s Hs. induction (seq 0 n) as [|i l IH]; intros s Hs; simpl.
  - exact Hs.
  - apply IH.
    + intros j Hj. apply Hin. now right.
    + apply Hstep; [apply Hin; now left | exact Hs].
Qed.

Lemma existsb_eqb_seq i n : existsb (Nat.eqb i) (seq 0 n) = (i <? n)%nat.
Proof.
  apply eq_true_iff_eq. rewrite existsb_exists, Nat.ltb_lt. split.
  - intros (x & Hx & Hix). apply Nat.eqb_eq in Hix. subst.
    apply in_seq in Hx. lia.
  - intros H. exists i. split; [apply in_seq; lia | apply Nat.eqb_refl].
Qed.

Lemma existsb_eqb_notin i ps : ~ In i ps -> existsb (Nat.eqb i) ps = false.
Proof.
  intros Hnotin. apply not_true_is_false. rewrite existsb_exists.
  intros (x & Hx & Hix). apply Nat.eqb_eq in Hix. now subst.
Qed.

Lemma nonneg_of_nat (k : nat) : 0 <= inject_Z (Z.of_nat k).
Proof. change 0 with (inject_Z 0). rewrite <- Zle_Qle. lia. Qed.

(** Quotient toward zero, bracketed. *)
Lemma quot_bounds (a b : Z) :
  (0 < b)%Z ->
  ((0 <= a -> b * (a ÷ b) <= a < b * (a ÷ b) + b) /\
   (a <= 0 -> b * (a ÷ b) - b < a <= b * (a ÷ b)))%Z.
Proof.
  intros Hb. pose proof (Z.quot_rem' a b) as Hqr. split; intros Ha.
  - pose proof (Z.rem_bound_pos a b Ha Hb). lia.
  - pose proof (Z.rem_bound_pos_neg a b Hb Ha). lia.
Qed.

(** Truncation and floor agree on non-negative values. *)
Lemma truncate_floor x : 0 <= x -> truncate x = Qfloor x.
Proof.
  destruct x as [a b]. unfold Qle, truncate, Qfloor. simpl. intros H.
  apply Z.quot_div_nonneg; lia.
Qed.

(** The value of the cast, in terms of the double itself. *)
Lemma int_of_double_cases x :
  let t := truncate x in
  (-2147483649 < x /\ x < 2147483648 /\ int_of_double x = t /\
   (INT_MIN <= t <= INT_MAX)%Z) \/
  ((x <= -2147483649 \/ 2147483648 <= x) /\ int_of_double x = INT_MIN).
Proof.
  destruct x as [a b]. unfold int_of_double, truncate, Qlt, Qle, INT_MIN, INT_MAX.
  cbn [Qnum Qden].
  destruct (quot_bounds a (Z.pos b) ltac:(lia)) as [Hpos Hneg].
  set (t := (a ÷ Z.pos b)%Z) in *.
  destruct (Z.leb_spec (-2147483648) t) as [Hlo | Hlo];
    destruct (Z.leb_spec t 2147483647) as [Hhi | Hhi]; cbn [andb].
  - left. simpl. destruct (Z.le_ge_cases 0 a) as [Ha | Ha];
      [specialize (Hpos Ha) | specialize (Hneg Ha)]; repeat split; nia.
  - right. split; [|reflexivity]. right. simpl.
    destruct (Z.le_ge_cases 0 a) as [Ha | Ha];
      [specialize (Hpos Ha) | specialize (Hneg Ha)]; nia.
  - right. split; [|reflexivity]. left. simpl.
    destruct (Z.le_ge_cases 0 a) as [Ha | Ha];
      [specialize (Hpos Ha) | specialize (Hneg Ha)]; nia.
  - lia.
Qed.

(** The truncated value is above zero exactly from 1 upwards, and below
    zero exactly up to -1. *)
Lemma truncate_pos x : (0 < truncate x)%Z <-> 1 <= x.
Proof.
  destruct x as [a b]. unfold truncate, Qle. cbn [Qnum Qden].
  destruct (quot_bounds a (Z.pos b) ltac:(lia)) as [Hpos Hneg].
  destruct (Z.le_ge_cases 0 a) as [Ha | Ha];
    [specialize (Hpos Ha) | specialize (Hneg Ha)]; split; intros H; nia.
Qed.

Lemma truncate_neg x : (truncate x < 0)%Z <-> x <= -1.
Proof.
  destruct x as [a b]. unfold truncate, Qle. cbn [Qnum Qden].
  destruct (quot_bounds a (Z.pos b) ltac:(lia)) as [Hpos Hneg].
  destruct (Z.le_ge_cases 0 a) as [Ha | Ha];
    [specialize (Hpos Ha) | specialize (Hneg Ha)]; split; intros H; nia.
Qed.

(** The cast is above zero exactly from 1 up to the end of the range of
    [int]. *)
Lemma int_of_double_pos x :
  (0 < int_of_double x)%Z <-> 1 <= x /\ x < 2147483648.
Proof.
  destruct (int_of_double_cases x) as [(Hlo & Hhi & -> & _) | (Hout & ->)].
  - rewrite truncate_pos. split; [intros H; now split | now intros [H _]].
  - unfold INT_MIN. split; [lia|]. intros [H1 H2]. destruct Hout; lra.
Qed.

(** The cast is below zero up to -1 and beyond the end of the range. *)
Lemma int_of_double_neg x :
  (int_of_double x < 0)%Z <-> x <= -1 \/ 2147483648 <= x.
Proof.
  destruct (int_of_double_cases x) as [(Hlo & Hhi & -> & _) | (Hout & ->)].
  - rewrite truncate_neg. split; [now left | intros [H | H]; [exact H | lra]].
  - unfold INT_MIN. split; [|lia]. intros _. destruct Hout; [left; lra | now right].
Qed.

(** A genotype of -1 or less is cast to a negative [int]. *)
Lemma int_of_double_missing x : x <= -1 -> (int_of_double x < 0)%Z.
Proof. intros H. apply int_of_double_neg. now left. Qed.

(** The cast is 0 or more exactly above -1 and below 2^31. *)
Lemma int_of_double_nonneg x :
  (0 <= int_of_double x)%Z <-> -1 < x /\ x < 2147483648.
Proof.
  pose proof (int_of_double_neg x) as H.
  split.
  - intros Hi. split; apply Qnot_le_lt; intros Hc; 
      assert (int_of_double x < 0)%Z by (apply H; auto); lia.
  - intros [H1 H2]. destruct (Z.lt_ge_cases (int_of_double x) 0) as [Hn|]; [|lia].
    apply H in Hn. destruct Hn; lra.
Qed.

(** ** Allele-frequency estimators *)

Module FrequencyFacts.

(** When the truncated genotype of every sample is negative (every entry is
    at most -1) the loop of [getMarkerFrequency] never fires and the result
    is the literal 0. *)
Lemma getMarkerFrequency_all_truncated_missing (inp : Matrix) (col : nat) :
  (forall p, (p < rows inp)%nat -> inp@[p, col] <= -1) ->
  getMarkerFrequency inp col = 0.
Proof.
  intros Hmiss. unfold getMarkerFrequency.
  assert (Hst : for_loop (rows inp) (freq_step inp col) (0, 0%Z) = (0, 0%Z)).
  { apply (for_loop_invariant (fun s => s = (0, 0%Z))); [reflexivity|].
    intros s p Hp ->. unfold freq_step.
    apply Hmiss, int_of_double_missing in Hp.
    destruct (Z.leb_spec 0 (int_of_double inp@[p, col])); [lia | reflexivity]. }
  rewrite Hst. reflexivity.
Qed.

(** C2, evaluated on the one-sample matrix whose only genotype is -1/2.
    The entry is negative, so the column is all missing, yet the cast
    [(int)(-0.5)] is 0, the sample is counted ([ac = -1/2], [an = 2]) and
    the frequency returned is -1/4 instead of 0.0. *)
Theorem getMarkerFrequency_fractional_missing :
  let inp := Matrix_of_rows [[-1 # 2]] in
  (forall p, (p < rows inp)%nat -> inp@[p, 0] < 0) /\
  int_of_double inp@[0, 0] = 0%Z /\
  getMarkerFrequency inp 0 = -1 # 4 /\
  ~ getMarkerFrequency inp 0 == 0.
Proof.
  simpl. repeat split.
  - intros p Hp. assert (p = 0%nat) as -> by lia. reflexivity.
  - intros H. discriminate H.
Qed.

(** The sibling estimator tests the genotype itself, without the cast, and
    skips the same sample. *)
Example getMarkerFrequencyFromControl_fractional_missing :
  getMarkerFrequencyFromControl (Matrix_of_rows [[-1 # 2]])
    (Vector_of_list [0]) 0 == 1 # 2.
Proof. reflexivity. Qed.

(** Invariant of the loop of [getMarkerFrequencyFromControl] when no
    genotype exceeds 2: the allele count stays between 0 and the allele
    number. *)
Lemma freq_control_bounds (inp : Matrix) (pheno : Vector) (col : nat) :
  (forall p, (p < rows inp)%nat -> inp@[p, col] <= 2) ->
  let s := for_loop (rows inp) (freq_control_step inp pheno col) (0, 0%Z) in
  0 <= fst s /\ fst s <= inject_Z (snd s) /\ (0 <= snd s)%Z.
Proof.
  intros Hle.
  apply (for_loop_invariant
           (fun s => 0 <= fst s /\ fst s <= inject_Z (snd s) /\ (0 <= snd s)%Z)).
  - simpl. repeat split; [lra | unfold inject_Z; lra | lia].
  - intros [ac an] p Hp (Hac & Han & Hz). unfold freq_control_step.
    destruct (Qeq_bool _ 1); [now repeat split|].
    destruct (Qle_bool 0 _) eqn:Hg; [|now repeat split].
    apply Qle_bool_iff in Hg. specialize (Hle p Hp). simpl in *.
    rewrite inject_Z_plus. repeat split; [lra | | lia].
    change (inject_Z 2) with 2. lra.
Qed.

(** C5 as stated fails: a single control with dosage 3 gives
    (3 + 1) / (2 + 2), which is exactly 1, and dosage 10 gives 11/4. *)
Lemma getMarkerFrequencyFromControl_range_counterexample :
  let pheno := Vector_of_list [0] in
  let three := Matrix_of_rows [[3]] in
  let ten := Matrix_of_rows [[10]] in
  (forall p, (p < rows three)%nat -> 0 <= three@[p, 0]) /\
  getMarkerFrequencyFromControl three pheno 0 == 1 /\
  ~ getMarkerFrequencyFromControl three pheno 0 < 1 /\
  (forall p, (p < rows ten)%nat -> 0 <= ten@[p, 0]) /\
  getMarkerFrequencyFromControl ten pheno 0 == 11 # 4 /\
  ~ getMarkerFrequencyFromControl ten pheno 0 < 1.
Proof.
  simpl. repeat split; try discriminate.
  - intros p Hp. assert (p = 0%nat) as -> by lia. discriminate.
  - intros p Hp. assert (p = 0%nat) as -> by lia. discriminate.
Qed.

(** C5 (amended).  When every genotype of the marker column lies between 0
    and 2, the diploid dosage range, the control-based estimate is strictly
    between 0 and 1. *)
Theorem getMarkerFrequencyFromControl_range (inp : Matrix) (pheno : Vector)
    (col : nat) :
  (forall p, (p < rows inp)%nat -> 0 <= inp@[p, col] /\ inp@[p, col] <= 2) ->
  0 < getMarkerFrequencyFromControl inp pheno col /\
  getMarkerFrequencyFromControl inp pheno col < 1.
Proof.
  intros H.
  destruct (freq_control_bounds inp pheno col) as (Hac & Han & Hz).
  { intros p Hp. apply H, Hp. }
  unfold getMarkerFrequencyFromControl.
  destruct (for_loop _ _ _) as [ac an]. simpl in *.
  unfold double_of_int. rewrite inject_Z_plus. change (inject_Z 2) with 2.
  assert (Hn : 0 <= inject_Z an)
    by (change 0 with (inject_Z 0); rewrite <- Zle_Qle; exact Hz).
  assert (Hd : 0 < inject_Z an + 2) by lra.
  split.
  - apply Qlt_shift_div_l; [exact Hd | lra].
  - apply Qlt_shift_div_r; [exact Hd | lra].
Qed.

Lemma getMarkerFrequencyFromControl_range_witness :
  let inp := Matrix_of_rows [[0]; [1]; [2]] in
  let pheno := Vector_of_list [0; 1; 0] in
  (forall p, (p < rows inp)%nat -> 0 <= inp@[p, 0] /\ inp@[p, 0] <= 2) /\
  0 < getMarkerFrequencyFromControl inp pheno 0 /\
  getMarkerFrequencyFromControl inp pheno 0 < 1.
Proof.
  intros inp pheno.
  assert (H : forall p, (p < rows inp)%nat ->
                        0 <= inp@[p, 0] /\ inp@[p, 0] <= 2).
  { intros p Hp. simpl in Hp.
    destruct p as [|[|[|p]]]; [| | | lia]; split; discriminate. }
  split; [exact H | apply (getMarkerFrequencyFromControl_range inp pheno 0 H)].
Defined.

End FrequencyFacts.

(** ** CMC collapsing *)

Module CmcFacts.

Lemma nonref_iff inp p m :
  nonref inp p m = true <-> 1 <= inp@[p, m] /\ inp@[p, m] < 2147483648.
Proof. unfold nonref. rewrite Z.ltb_lt. apply int_of_double_pos. Qed.

Lemma existsb_nonref inp p ms :
  existsb (nonref inp p) ms = true <->
  exists m, In m ms /\ nonref inp p m = true.
Proof. apply existsb_exists. Qed.

(** Cells after the marker loop of one sample. *)
Lemma cmc_scan_elem inp p ms out oi i j :
  (cmc_scan inp p ms out oi)@[i, j] =
  if (i =? p)%nat && (j =? oi)%nat && existsb (nonref inp p) ms
  then 1 else out@[i, j].
Proof.
  induction ms as [|m ms IH]; simpl.
  - now rewrite andb_false_r.
  - destruct (nonref inp p m); simpl.
    + now rewrite andb_true_r.
    + exact IH.
Qed.

Lemma cmc_scan_shape inp p ms out oi :
  rows (cmc_scan inp p ms out oi) = rows out /\
  cols (cmc_scan inp p ms out oi) = cols out.
Proof.
  induction ms as [|m ms IH]; simpl; [now split|].
  destruct (nonref inp p m); [now split | exact IH].
Qed.

(** Cells after the sample loop over [ps]. *)
Lemma cmc_rows_elem inp ms oi ps : forall out i j,
  (fold_left (fun out p => cmc_scan inp p ms out oi) ps out)@[i, j] =
  if existsb (Nat.eqb i) ps && (j =? oi)%nat && existsb (nonref inp i) ms
  then 1 else out@[i, j].
Proof.
  induction ps as [|p ps IH]; intros out i j; simpl.
  - reflexivity.
  - rewrite IH, cmc_scan_elem.
    destruct (Nat.eqb_spec i p) as [->|Hne]; simpl.
    + destruct (existsb (Nat.eqb p) ps), (j =? oi)%nat,
        (existsb (nonref inp p) ms); reflexivity.
    + reflexivity.
Qed.

Lemma cmcCollapse_elem inp out i j :
  (cmcCollapse inp out)@[i, j] =
  if (i <? rows inp)%nat && (j =? 0)%nat
     && existsb (nonref inp i) (seq 0 (cols inp))
  then 1 else 0.
Proof.
  unfold cmcCollapse, for_loop. rewrite cmc_rows_elem, existsb_eqb_seq.
  reflexivity.
Qed.

Lemma cmcCollapse_index_elem inp index out outIndex :
  rows out = rows inp -> (outIndex < cols out)%nat ->
  exists out',
    cmcCollapse_index inp index out outIndex = Some out' /\
    forall i j,
      out'@[i, j] =
      if (i <? rows inp)%nat && (j =? outIndex)%nat
         && existsb (nonref inp i) index
      then 1 else out@[i, j].
Proof.
  intros Hr Hc. unfold cmcCollapse_index.
  apply Nat.eqb_eq in Hr. apply Nat.ltb_lt in Hc. rewrite Hr, Hc. simpl.
  eexists. split; [reflexivity|]. intros i j.
  unfold for_loop. rewrite cmc_rows_elem, existsb_eqb_seq. reflexivity.
Qed.

(** C3 as stated fails on both overloads.  A genotype of 1/2 is above 0 but
    truncates to 0, so the sample is scored 0.0; a genotype of 3000000000
    is above 0 but beyond the range of [int], the cast gives INT_MIN and
    the sample is scored 0.0; and the indexed overload never writes 0.0, so
    a sample without a carrier keeps whatever the column held, here 5. *)
Lemma cmcCollapse_counterexample :
  let half := Matrix_of_rows [[1 # 2]] in
  let big := Matrix_of_rows [[3000000000]] in
  let zero := Matrix_of_rows [[0]] in
  let five := Matrix_of_rows [[5]] in
  (exists m, (m < cols half)%nat /\ 0 < half@[0, m]) /\
  (cmcCollapse half empty_matrix)@[0, 0] = 0 /\
  (exists m, (m < cols big)%nat /\ 0 < big@[0, m]) /\
  (cmcCollapse big empty_matrix)@[0, 0] = 0 /\
  exists out',
    cmcCollapse_index zero [0%nat] five 0 = Some out' /\
    out'@[0, 0] = 5.
Proof.
  simpl. split; [|split; [|split; [|split]]].
  - exists 0%nat. split; [lia | reflexivity].
  - reflexivity.
  - exists 0%nat. split; [lia | reflexivity].
  - reflexivity.
  - eexists. split; reflexivity.
Qed.

Lemma existsb_nonref_true inp p ms :
  (exists m, In m ms /\ (0 < int_of_double inp@[p, m])%Z) ->
  existsb (nonref inp p) ms = true.
Proof.
  intros (m & Hm & Hnr). apply existsb_nonref. exists m.
  split; [exact Hm | now apply Z.ltb_lt].
Qed.

Lemma existsb_nonref_false inp p ms :
  (forall m, In m ms -> (int_of_double inp@[p, m] <= 0)%Z) ->
  existsb (nonref inp p) ms = false.
Proof.
  intros Hnone. apply not_true_is_false. intros Ht.
  apply existsb_nonref in Ht as (m & Hm & Hnr).
  apply Z.ltb_lt in Hnr. specialize (Hnone m Hm). lia.
Qed.

(** The cell of sample [p] after the two-argument overload. *)
Lemma cmcCollapse_cell inp out p :
  (p < rows inp)%nat ->
  ((cmcCollapse inp out)@[p, 0] = 1 <->
   exists m, (m < cols inp)%nat /\ (0 < int_of_double inp@[p, m])%Z) /\
  ((cmcCollapse inp out)@[p, 0] = 1 \/ (cmcCollapse inp out)@[p, 0] = 0).
Proof.
  intros Hp. apply Nat.ltb_lt in Hp. rewrite cmcCollapse_elem, Hp. simpl.
  destruct (existsb (nonref inp p) (seq 0 (cols inp))) eqn:Hex.
  - split; [|now left]. split; [intros _ | reflexivity].
    apply existsb_nonref in Hex as (m & Hm & Hnr).
    exists m. apply in_seq in Hm. apply Z.ltb_lt in Hnr.
    split; [lia | exact Hnr].
  - split; [|now right]. split; [discriminate|].
    intros (m & Hm & Hnr). exfalso.
    rewrite existsb_nonref_true in Hex; [discriminate|].
    exists m. split; [apply in_seq; lia | exact Hnr].
Qed.

(** The cell of sample [p] after the indexed overload. *)
Lemma cmcCollapse_index_cell inp index out outIndex p :
  (p < rows inp)%nat ->
  rows out = rows inp ->
  (outIndex < cols out)%nat ->
  exists out',
    cmcCollapse_index inp index out outIndex = Some out' /\
    ((exists m, In m index /\ (0 < int_of_double inp@[p, m])%Z) ->
     out'@[p, outIndex] = 1) /\
    ((forall m, In m index -> (int_of_double inp@[p, m] <= 0)%Z) ->
     out'@[p, outIndex] = out@[p, outIndex]).
Proof.
  intros Hp Hr Hc. apply Nat.ltb_lt in Hp.
  destruct (cmcCollapse_index_elem inp index out outIndex Hr Hc)
    as (out' & Hrun & Hcell).
  exists out'. split; [exact Hrun|].
  rewrite Hcell, Hp, Nat.eqb_refl. simpl. split.
  - intros Hsome. now rewrite existsb_nonref_true.
  - intros Hnone. now rewrite existsb_nonref_false.
Qed.

(** A genotype outside [1, 2^31) does not pass the test. *)
Lemma not_carrier_cast (g : Q) :
  g < 1 \/ 2147483648 <= g -> (int_of_double g <= 0)%Z.
Proof.
  intros H. destruct (Z.lt_ge_cases 0 (int_of_double g)) as [Hpos | Hle];
    [|exact Hle].
  apply int_of_double_pos in Hpos. destruct Hpos, H; lra.
Qed.

(** C3 (amended).  The two-argument overload scores a sample 1.0 exactly
    when the cast to [int] of the genotype of some marker is above 0, that
    is when some genotype is at least 1 and below 2^31, and 0.0 otherwise.
    The indexed overload sets the cell of column [outIndex] to 1.0 when
    one of the listed markers has such a genotype and otherwise leaves the
    cell as it was. *)
Theorem cmcCollapse_indicator (inp out1 out2 : Matrix) (index : list nat)
    (outIndex p : nat) :
  (p < rows inp)%nat ->
  rows out2 = rows inp ->
  (outIndex < cols out2)%nat ->
  ((cmcCollapse inp out1)@[p, 0] = 1 <->
   exists m, (m < cols inp)%nat /\
             1 <= inp@[p, m] /\ inp@[p, m] < 2147483648) /\
  ((cmcCollapse inp out1)@[p, 0] = 1 \/ (cmcCollapse inp out1)@[p, 0] = 0) /\
  exists out',
    cmcCollapse_index inp index out2 outIndex = Some out' /\
    ((exists m, In m index /\ 1 <= inp@[p, m] /\ inp@[p, m] < 2147483648) ->
     out'@[p, outIndex] = 1) /\
    ((forall m, In m index -> inp@[p, m] < 1 \/ 2147483648 <= inp@[p, m]) ->
     out'@[p, outIndex] = out2@[p, outIndex]).
Proof.
  intros Hp Hr Hc.
  destruct (cmcCollapse_cell inp out1 p Hp) as [Hiff Hbin].
  split; [|split; [exact Hbin|]].
  - rewrite Hiff. split; intros (m & Hm & Hg); exists m; split; try exact Hm;
      now apply int_of_double_pos.
  - destruct (cmcCollapse_index_cell inp index out2 outIndex p Hp Hr Hc)
      as (out' & Hrun & Hset & Hkeep).
    exists out'. split; [exact Hrun|]. split.
    + intros (m & Hm & Hg). apply Hset. exists m. split; [exact Hm|].
      now apply int_of_double_pos.
    + intros Hnone. apply Hkeep. intros m Hm.
      apply not_carrier_cast, Hnone, Hm.
Qed.

Lemma cmcCollapse_indicator_witness :
  let inp := Matrix_of_rows [[0; 1]; [2; 0]; [0; 1 # 2]] in
  let out2 := Matrix_of_rows [[7; 8]; [7; 8]; [7; 8]] in
  (1 < rows inp)%nat /\ (2 < rows inp)%nat /\
  rows out2 = rows inp /\ (1 < cols out2)%nat /\
  (cmcCollapse inp empty_matrix)@[1, 0] = 1 /\
  (cmcCollapse inp empty_matrix)@[2, 0] = 0 /\
  exists out',
    cmcCollapse_index inp [0%nat; 1%nat] out2 1 = Some out' /\
    out'@[1, 1] = 1 /\ out'@[2, 1] = 8.
Proof.
  intros inp out2.
  assert (Hp1 : (1 < rows inp)%nat) by (simpl; lia).
  assert (Hp2 : (2 < rows inp)%nat) by (simpl; lia).
  assert (Hr : rows out2 = rows inp) by reflexivity.
  assert (Hc : (1 < cols out2)%nat) by (simpl; lia).
  assert (Hcarrier : 1 <= inp@[1, 0] /\ inp@[1, 0] < 2147483648)
    by (split; [discriminate | reflexivity]).
  assert (Hnone : forall m, In m [0%nat; 1%nat] ->
                    inp@[2, m] < 1 \/ 2147483648 <= inp@[2, m])
    by (intros m [<- | [<- | []]]; left; reflexivity).
  split; [exact Hp1|]. split; [exact Hp2|].
  split; [exact Hr|]. split; [exact Hc|].
  destruct (cmcCollapse_indicator inp empty_matrix out2 [0%nat; 1%nat] 1 1
              Hp1 Hr Hc) as (Hiff1 & _ & out1' & Hrun1 & Hset1 & _).
  destruct (cmcCollapse_indicator inp empty_matrix out2 [0%nat; 1%nat] 1 2
              Hp2 Hr Hc) as (Hiff2 & [Hone | Hzero] & out' & Hrun & _ & Hkeep).
  - exfalso. apply Hiff2 in Hone. destruct Hone as (m & Hm & H1 & _).
    simpl in Hm. destruct m as [|[|m]]; [| | lia]; apply H1; reflexivity.
  - split; [apply Hiff1; exists 0%nat; split; [simpl; lia | exact Hcarrier]|].
    split; [exact Hzero|]. exists out'. split; [exact Hrun|].
    split; [|apply Hkeep, Hnone].
    rewrite Hrun in Hrun1. injection Hrun1 as <-.
    apply Hset1. exists 0%nat. split; [now left | exact Hcarrier].
Defined.

(** C8.  The indexed overload, called on an output matrix of the asserted
    shape, leaves every cell outside column [outIndex] as it was; a cell of
    column [outIndex] is either as it was or 1.0; and the cell of a sample
    none of whose listed markers passes the test is as it was.  The shape
    of the output matrix does not change. *)
Theorem cmcCollapse_index_frame (inp : Matrix) (index : list nat)
    (out : Matrix) (outIndex : nat) :
  rows out = rows inp ->
  (outIndex < cols out)%nat ->
  exists out',
    cmcCollapse_index inp index out outIndex = Some out' /\
    rows out' = rows out /\ cols out' = cols out /\
    (forall p c, c <> outIndex -> out'@[p, c] = out@[p, c]) /\
    (forall p, out'@[p, outIndex] = out@[p, outIndex] \/
               out'@[p, outIndex] = 1) /\
    (forall p, (forall m, In m index -> (int_of_double inp@[p, m] <= 0)%Z) ->
               out'@[p, outIndex] = out@[p, outIndex]).
Proof.
  intros Hr Hc.
  destruct (cmcCollapse_index_elem inp index out outIndex Hr Hc)
    as (out' & Hrun & Hcell).
  exists out'. split; [exact Hrun|].
  assert (Hshape : rows out' = rows out /\ cols out' = cols out).
  { unfold cmcCollapse_index in Hrun.
    destruct (negb _); [discriminate|]. destruct (negb _); [discriminate|].
    injection Hrun as <-.
    apply (for_loop_invariant
             (fun o => rows o = rows out /\ cols o = cols out));
      [now split|].
    intros o p _ [Ho1 Ho2].
    destruct (cmc_scan_shape inp p index o outIndex) as [-> ->].
    now split. }
  destruct Hshape as [Hrows Hcols].
  split; [exact Hrows|]. split; [exact Hcols|]. split; [|split].
  - intros p c Hne. rewrite Hcell.
    apply Nat.eqb_neq in Hne. rewrite Hne, andb_false_r. reflexivity.
  - intros p. rewrite Hcell. destruct (_ && _); [now right | now left].
  - intros p Hnone. rewrite Hcell, (existsb_nonref_false _ _ _ Hnone).
    now rewrite andb_false_r.
Qed.

Lemma cmcCollapse_index_frame_witness :
  let inp := Matrix_of_rows [[0; 1]; [0; 0]] in
  let out := Matrix_of_rows [[7; 8]; [9; 10]] in
  rows out = rows inp /\ (1 < cols out)%nat /\
  exists out',
    cmcCollapse_index inp [1%nat] out 1 = Some out' /\
    out'@[0, 0] = 7 /\ out'@[1, 0] = 9 /\ out'@[1, 1] = 10.
Proof.
  intros inp out.
  assert (Hr : rows out = rows inp) by reflexivity.
  assert (Hc : (1 < cols out)%nat) by (simpl; lia).
  split; [exact Hr|]. split; [exact Hc|].
  destruct (cmcCollapse_index_frame inp [1%nat] out 1 Hr Hc)
    as (out' & Hrun & _ & _ & Hframe & _ & Hkeep).
  exists out'. split; [exact Hrun|].
  split; [apply (Hframe 0%nat 0%nat); lia|].
  split; [apply (Hframe 1%nat 0%nat); lia|].
  apply (Hkeep 1%nat). intros m [<- | []]. vm_compute. discriminate.
Defined.

End CmcFacts.

(** ** Morris-Zeggini collapsing *)

Module ZegginiFacts.

(** On an integer genotype within the range of [int] the test of the code
    and the test of the specification agree. *)
Lemma nonref_above_zero_integer inp p m (z : Z) :
  inp@[p, m] == inject_Z z -> (z < 2147483648)%Z ->
  nonref inp p m = above_zero inp p m.
Proof.
  intros Hz Hrange. apply eq_true_iff_eq.
  rewrite CmcFacts.nonref_iff. unfold above_zero, Qlt_bool.
  rewrite negb_true_iff, <- not_true_iff_false, Qle_bool_iff, Hz.
  change 1 with (inject_Z 1). change 0 with (inject_Z 0).
  change 2147483648 with (inject_Z 2147483648).
  rewrite <- !Zle_Qle, <- Zlt_Qlt. lia.
Qed.

(** The test of the code, on the genotype itself. *)
Lemma nonref_carrier inp p m : nonref inp p m = carrier inp p m.
Proof.
  apply eq_true_iff_eq. rewrite CmcFacts.nonref_iff. unfold carrier, Qlt_bool.
  rewrite andb_true_iff, negb_true_iff, <- not_true_iff_false,
    !Qle_bool_iff.
  split; intros [H1 H2]; (split; [exact H1|]).
  - now apply Qlt_not_le.
  - now apply Qnot_le_lt.
Qed.

Lemma count_nonref_carrier inp p ms :
  count_nonref inp p ms = count_carrier inp p ms.
Proof.
  unfold count_nonref, count_carrier. f_equal.
  apply filter_ext. intros m. apply nonref_carrier.
Qed.

(** Cells after the marker loop of one sample. *)
Lemma zeggini_row_elem inp p ms : forall out i j,
  (fold_left (zeggini_step inp p) ms out)@[i, j] ==
  if (i =? p)%nat && (j =? 0)%nat
  then out@[i, j] + inject_Z (Z.of_nat (count_nonref inp p ms))
  else out@[i, j].
Proof.
  unfold count_nonref.
  induction ms as [|m ms IH]; intros out i j; simpl.
  - destruct (_ && _); simpl; [unfold inject_Z; ring | reflexivity].
  - rewrite IH. unfold zeggini_step.
    destruct (nonref inp p m); simpl.
    + destruct (Nat.eqb_spec i p) as [->|]; simpl; [|reflexivity].
      destruct (Nat.eqb_spec j 0) as [->|]; simpl; [|reflexivity].
      rewrite Zpos_P_of_succ_nat, <- Z.add_1_l, inject_Z_plus.
      change (inject_Z 1) with 1. ring.
    + reflexivity.
Qed.

(** Cells after the sample loop over [ps]. *)
Lemma zeggini_rows_elem inp n ps : NoDup ps -> forall out i j,
  (fold_left (fun out p => for_loop n (zeggini_step inp p) out) ps out)@[i, j]
  == if existsb (Nat.eqb i) ps && (j =? 0)%nat
     then out@[i, j] + inject_Z (Z.of_nat (count_nonref inp i (seq 0 n)))
     else out@[i, j].
Proof.
  induction 1 as [|p ps Hnotin Hnd IH]; intros out i j; simpl.
  - reflexivity.
  - rewrite IH. unfold for_loop.
    destruct (Nat.eqb_spec i p) as [->|Hne]; simpl.
    + rewrite (existsb_eqb_notin _ _ Hnotin). simpl.
      rewrite zeggini_row_elem, Nat.eqb_refl. reflexivity.
    + destruct (existsb (Nat.eqb i) ps && (j =? 0)%nat);
        rewrite !zeggini_row_elem;
        replace (i =? p)%nat with false by (symmetry; now apply Nat.eqb_neq);
        reflexivity.
Qed.

Lemma zegginiCollapse_elem inp out i j :
  (zegginiCollapse inp out)@[i, j] ==
  if (i <? rows inp)%nat && (j =? 0)%nat
  then inject_Z (Z.of_nat (count_nonref inp i (seq 0 (cols inp))))
  else 0.
Proof.
  unfold zegginiCollapse, for_loop at 1.
  rewrite zeggini_rows_elem by apply seq_NoDup.
  rewrite existsb_eqb_seq. simpl.
  destruct (_ && _); [ring | reflexivity].
Qed.

(** C4 as stated fails: the one marker of the sample has genotype 1/2,
    which is above 0, so the claimed count is 1; the code truncates the
    genotype to 0 and leaves the score at 0.0.  The same happens with the
    genotype 3000000000, beyond the range of [int], which the cast turns
    into INT_MIN. *)
Lemma zegginiCollapse_counterexample :
  let inp := Matrix_of_rows [[1 # 2]] in
  let big := Matrix_of_rows [[3000000000]] in
  count_above_zero inp 0 (seq 0 (cols inp)) = 1%nat /\
  (zegginiCollapse inp empty_matrix)@[0, 0] = 0 /\
  ~ (zegginiCollapse inp empty_matrix)@[0, 0]
    == inject_Z (Z.of_nat (count_above_zero inp 0 (seq 0 (cols inp)))) /\
  count_above_zero big 0 (seq 0 (cols big)) = 1%nat /\
  (zegginiCollapse big empty_matrix)@[0, 0] = 0.
Proof.
  simpl. split; [reflexivity|]. split; [reflexivity|].
  split; [intros H; discriminate H|]. split; reflexivity.
Qed.

(** C4 (amended).  The score of a sample is the number of markers whose
    genotype, cast to [int], is above 0: the markers whose genotype is at
    least 1 and below 2^31. *)
Theorem zegginiCollapse_count (inp out : Matrix) (p : nat) :
  (p < rows inp)%nat ->
  (zegginiCollapse inp out)@[p, 0] ==
  inject_Z (Z.of_nat (count_carrier inp p (seq 0 (cols inp)))).
Proof.
  intros Hp. apply Nat.ltb_lt in Hp.
  rewrite zegginiCollapse_elem, Hp, count_nonref_carrier. reflexivity.
Qed.

Lemma zegginiCollapse_count_witness :
  let inp := Matrix_of_rows [[0; 1; 0]; [2; 1; 1 # 2]; [0; 0; 0]] in
  (1 < rows inp)%nat /\
  count_carrier inp 1 (seq 0 (cols inp)) = 2%nat /\
  (zegginiCollapse inp empty_matrix)@[1, 0] == 2.
Proof.
  intros inp.
  assert (Hp : (1 < rows inp)%nat) by (simpl; lia).
  split; [exact Hp|]. split; [reflexivity|].
  exact (zegginiCollapse_count inp empty_matrix 1 Hp).
Defined.

End ZegginiFacts.

(** ** Frequency-weighted collapsing *)

Module WeightedFacts.

(** Cells after the sample loop of one marker. *)
Lemma add_weighted_people g m w ps : NoDup ps -> forall out i j,
  (fold_left (add_weighted g m w) ps out)@[i, j] =
  if existsb (Nat.eqb i) ps && (j =? 0)%nat
  then out@[i, 0] + g@[i, m] * w
  else out@[i, j].
Proof.
  induction 1 as [|p ps Hnotin Hnd IH]; intros out i j; simpl.
  - reflexivity.
  - rewrite IH. unfold add_weighted. simpl.
    destruct (Nat.eqb_spec i p) as [->|Hne]; simpl.
    + rewrite (existsb_eqb_notin _ _ Hnotin). simpl.
      destruct (j =? 0)%nat eqn:Hj; [|reflexivity].
      apply Nat.eqb_eq in Hj. now subst.
    + reflexivity.
Qed.

(** Cells after the marker loop, for any frequency [F m] and weight [W m]
    of marker [m]: the three weighted methods differ in these only. *)
Lemma weighted_markers g n (F W : nat -> Q) ms : forall out i j,
  (fold_left
     (fun out m =>
        if degenerate (F m) then out
        else for_loop n (add_weighted g m (W m)) out) ms out)@[i, j]
  == if (i <? n)%nat && (j =? 0)%nat
     then out@[i, 0]
          + Qsum (fun m => g@[i, m] * (if degenerate (F m) then 0 else W m)) ms
     else out@[i, j].
Proof.
  induction ms as [|m ms IH]; intros out i j; simpl.
  - destruct (_ && _) eqn:E; [|reflexivity].
    apply andb_prop in E as [_ Hj]. apply Nat.eqb_eq in Hj. subst. ring.
  - rewrite IH. destruct (degenerate (F m)).
    + destruct (_ && _); [ring | reflexivity].
    + unfold for_loop. rewrite !add_weighted_people by apply seq_NoDup.
      rewrite existsb_eqb_seq.
      destruct (i <? n)%nat; simpl; [|reflexivity].
      destruct (j =? 0)%nat; simpl; [ring | reflexivity].
Qed.

Section Sqrt.

Variable sqrt : Q -> Q.

Lemma madsonBrowningCollapse_elem genotype phenotype out p :
  (p < rows genotype)%nat ->
  (madsonBrowningCollapse sqrt genotype phenotype out)@[p, 0] ==
  Qsum (fun m => genotype@[p, m] * weight_control sqrt genotype phenotype m)
       (seq 0 (cols genotype)).
Proof.
  intros Hp. unfold madsonBrowningCollapse, for_loop at 1.
  rewrite (weighted_markers genotype (rows genotype)
             (getMarkerFrequencyFromControl genotype phenotype)
             (fun m =>
                1 / sqrt (getMarkerFrequencyFromControl genotype phenotype m
                          * (1 - getMarkerFrequencyFromControl
                                   genotype phenotype m)
                          * double_of_int (Z.of_nat (rows genotype))))).
  apply Nat.ltb_lt in Hp. rewrite Hp. simpl. unfold weight_control. ring.
Qed.

Lemma fpCollapse_elem inp out p :
  (p < rows inp)%nat ->
  (fpCollapse sqrt inp out)@[p, 0] ==
  Qsum (fun m => inp@[p, m] * weight_uncond sqrt inp m) (seq 0 (cols inp)).
Proof.
  intros Hp. unfold fpCollapse, for_loop at 1.
  rewrite (weighted_markers inp (rows inp) (getMarkerFrequency inp)
             (fun m => 1 / sqrt (getMarkerFrequency inp m
                                 * (1 - getMarkerFrequency inp m)))).
  apply Nat.ltb_lt in Hp. rewrite Hp. simpl. unfold weight_uncond. ring.
Qed.

Lemma madsonBrowningCollapse_ptr_elem d out p :
  (p < rows d)%nat ->
  (madsonBrowningCollapse_ptr sqrt d out)@[p, 0] ==
  Qsum (fun m => d@[p, m] * weight_uncond sqrt d m) (seq 0 (cols d)).
Proof.
  intros Hp. unfold madsonBrowningCollapse_ptr, for_loop at 1.
  rewrite (weighted_markers d (rows d) (getMarkerFrequency d)
             (fun m => 1 / sqrt (getMarkerFrequency d m
                                 * (1 - getMarkerFrequency d m)))).
  apply Nat.ltb_lt in Hp. rewrite Hp. simpl. unfold weight_uncond. ring.
Qed.

(** With a square root that is positive on positive arguments, a marker
    that is not skipped carries a positive weight, so a negative genotype
    at such a marker lowers the score. *)
Lemma nondegenerate_variance freq :
  degenerate freq = false -> 0 < freq * (1 - freq).
Proof.
  unfold degenerate. intros H. apply orb_false_elim in H as [H0 H1].
  apply not_true_iff_false in H0, H1. rewrite Qle_bool_iff in H0, H1.
  apply Qnot_le_lt in H0, H1.
  setoid_replace 0 with (freq * 0) by ring.
  apply Qmult_lt_l; [exact H0 | lra].
Qed.

Lemma weight_uncond_pos inp m :
  (forall x, 0 < x -> 0 < sqrt x) ->
  degenerate (getMarkerFrequency inp m) = false ->
  0 < weight_uncond sqrt inp m.
Proof.
  intros Hsqrt Hnd. unfold weight_uncond. rewrite Hnd.
  apply Qlt_shift_div_l; [|lra].
  apply Hsqrt, nondegenerate_variance, Hnd.
Qed.

Lemma weight_control_pos genotype phenotype m :
  (forall x, 0 < x -> 0 < sqrt x) ->
  (0 < rows genotype)%nat ->
  degenerate (getMarkerFrequencyFromControl genotype phenotype m) = false ->
  0 < weight_control sqrt genotype phenotype m.
Proof.
  intros Hsqrt Hrows Hnd. unfold weight_control. rewrite Hnd.
  apply Qlt_shift_div_l; [|lra].
  apply Hsqrt.
  setoid_replace 0
    with (0 * double_of_int (Z.of_nat (rows genotype))) by ring.
  apply Qmult_lt_r; [|apply nondegenerate_variance, Hnd].
  unfold double_of_int. change 0 with (inject_Z 0). rewrite <- Zlt_Qlt. lia.
Qed.

(** Whatever [sqrt] is, as long as it is positive on positive arguments, a
    lone control with the missing code -1 gets a negative score from the
    control-weighted method, and so does the first of two samples with
    genotypes -1 and 1 from the unconditional methods. *)
Lemma madsonBrowningCollapse_missing_negative :
  (forall x, 0 < x -> 0 < sqrt x) ->
  (madsonBrowningCollapse sqrt (Matrix_of_rows [[-1]]) (Vector_of_list [0])
     empty_matrix)@[0, 0] < 0.
Proof.
  intros Hsqrt.
  rewrite madsonBrowningCollapse_elem by (simpl; lia).
  pose proof (weight_control_pos (Matrix_of_rows [[-1]]) (Vector_of_list [0])
                0 Hsqrt ltac:(simpl; lia) eq_refl) as Hw.
  cbn [Qsum fold_right seq cols Matrix_of_rows List.length].
  change ((Matrix_of_rows [[-1]])@[0, 0]) with (-1). lra.
Qed.

Lemma fpCollapse_missing_negative :
  (forall x, 0 < x -> 0 < sqrt x) ->
  (fpCollapse sqrt (Matrix_of_rows [[-1]; [1]]) empty_matrix)@[0, 0] < 0.
Proof.
  intros Hsqrt.
  rewrite fpCollapse_elem by (simpl; lia).
  pose proof (weight_uncond_pos (Matrix_of_rows [[-1]; [1]]) 0 Hsqrt eq_refl)
    as Hw.
  cbn [Qsum fold_right seq cols Matrix_of_rows List.length].
  change ((Matrix_of_rows [[-1]; [1]])@[0, 0]) with (-1). lra.
Qed.

End Sqrt.

Lemma Qsqrt_quarter : Qsqrt (1 # 4) == 1 # 2.
Proof. reflexivity. Qed.

Lemma Qsqrt_pos x : 0 < x -> 0 < Qsqrt x.
Proof.
  destruct x as [a b]. unfold Qlt, Qsqrt. simpl.
  rewrite !Z.mul_1_r. intros Ha. apply Z.sqrt_pos. lia.
Qed.

(** C1 as stated fails.  A lone control with genotype -1: the control
    estimate is (0 + 1) / (0 + 2), the weight 1 / sqrt (1/4) is 2 and the
    sample is scored -1 * 2.  Two samples with genotypes -1 and 1: the
    unconditional frequency is 1/2, the weight is 2 again, and the sample
    with the missing genotype is scored -2 by both unconditional methods. *)
Lemma weighted_missing_counterexample :
  let one := Matrix_of_rows [[-1]] in
  let two := Matrix_of_rows [[-1]; [1]] in
  one@[0, 0] < 0 /\ two@[0, 0] < 0 /\
  (madsonBrowningCollapse Qsqrt one (Vector_of_list [0]) empty_matrix)@[0, 0]
  == -2 /\
  (fpCollapse Qsqrt two empty_matrix)@[0, 0] == -2 /\
  (madsonBrowningCollapse_ptr Qsqrt two empty_matrix)@[0, 0] == -2.
Proof.
  simpl. repeat split; vm_compute; reflexivity.
Qed.

(** C1 (amended).  In the three weighted methods the score of a sample is
    the sum over all markers of genotype times weight, where the weight of
    a marker is zero if its frequency is at most 0 or at least 1 and the
    reciprocal square root otherwise.  The genotype enters the sum as it
    is: a negative (missing) genotype contributes its negative value times
    the weight, and contributes zero only at a marker of weight zero. *)
Theorem weighted_collapse_sum (sqrt : Q -> Q) (genotype : Matrix)
    (phenotype : Vector) (out : Matrix) (p : nat) :
  (p < rows genotype)%nat ->
  (madsonBrowningCollapse sqrt genotype phenotype out)@[p, 0] ==
    Qsum (fun m => genotype@[p, m] * weight_control sqrt genotype phenotype m)
         (seq 0 (cols genotype)) /\
  (fpCollapse sqrt genotype out)@[p, 0] ==
    Qsum (fun m => genotype@[p, m] * weight_uncond sqrt genotype m)
         (seq 0 (cols genotype)) /\
  (madsonBrowningCollapse_ptr sqrt genotype out)@[p, 0] ==
    Qsum (fun m => genotype@[p, m] * weight_uncond sqrt genotype m)
         (seq 0 (cols genotype)).
Proof.
  intros Hp. split; [|split].
  - now apply madsonBrowningCollapse_elem.
  - now apply fpCollapse_elem.
  - now apply madsonBrowningCollapse_ptr_elem.
Qed.

Lemma weighted_collapse_sum_witness :
  let genotype := Matrix_of_rows [[-1; 0]; [1; 2]] in
  let phenotype := Vector_of_list [0; 1] in
  (0 < rows genotype)%nat /\
  weight_uncond Qsqrt genotype 0 == 2 /\
  (fpCollapse Qsqrt genotype empty_matrix)@[0, 0] ==
    -1 * weight_uncond Qsqrt genotype 0
    + (0 * weight_uncond Qsqrt genotype 1 + 0).
Proof.
  intros genotype phenotype.
  assert (Hp : (0 < rows genotype)%nat) by (simpl; lia).
  split; [exact Hp|]. split; [reflexivity|].
  exact (proj1 (proj2 (weighted_collapse_sum Qsqrt genotype phenotype
                         empty_matrix 0 Hp))).
Defined.

(** C6.  [fpCollapse] and the pointer overload of [madsonBrowningCollapse]
    return the same output matrix, for every square-root function, every
    genotype matrix and every output matrix they are handed. *)
Theorem fpCollapse_madsonBrowningCollapse_ptr (sqrt : Q -> Q)
    (inp out : Matrix) :
  fpCollapse sqrt inp out = madsonBrowningCollapse_ptr sqrt inp out.
Proof.
  unfold fpCollapse, madsonBrowningCollapse_ptr. reflexivity.
Qed.

End WeightedFacts.

(** ** Grouping by frequency *)

Module GroupFacts.

(** What one pass of the loop body would do, were the loop ever entered. *)
Example push_at_groups :
  push_at (1 # 10) 2 (push_at (2 # 10) 1 (push_at (1 # 10) 0 []))
  = [(1 # 10, [0%nat; 2%nat]); (2 # 10, [1%nat])].
Proof. reflexivity. Qed.

(** C9.  Whatever the frequency list and the previous contents of the map,
    [groupFrequency] leaves the map empty: it is cleared and the loop,
    bounded by 0, never inserts. *)
Theorem groupFrequency_empty (freq : list Q) (group : FreqMap) :
  groupFrequency freq group = [].
Proof.
  unfold groupFrequency, for_loop. simpl. reflexivity.
Qed.

End GroupFacts.

(** ** Summary statistics *)

Module SummaryFacts.

Lemma insert_perm x l : Permutation (x :: l) (insert x l).
Proof.
  induction l as [|y l IH]; simpl.
  - apply Permutation_refl.
  - destruct (Qle_bool x y).
    + apply Permutation_refl.
    + eapply perm_trans; [apply perm_swap | apply perm_skip, IH].
Qed.

Lemma sort_perm l : Permutation l (sort l).
Proof.
  induction l as [|x l IH]; simpl.
  - apply perm_nil.
  - eapply perm_trans; [apply perm_skip, IH | apply insert_perm].
Qed.

Lemma insert_sorted x l : Sorted Qle l -> Sorted Qle (insert x l).
Proof.
  induction 1 as [|y l Hs IH Hhd]; simpl.
  - repeat constructor.
  - destruct (Qle_bool x y) eqn:Hxy.
    + apply Qle_bool_iff in Hxy. repeat constructor; assumption.
    + assert (Hyx : y <= x).
      { destruct (Qlt_le_dec y x) as [Hlt | Hle].
        - now apply Qlt_le_weak.
        - apply Qle_bool_iff in Hle. congruence. }
      constructor; [exact IH|].
      destruct Hhd as [|z l' Hyz]; simpl.
      * now constructor.
      * destruct (Qle_bool x z); now constructor.
Qed.

Lemma sort_sorted l : Sorted Qle (sort l).
Proof.
  induction l as [|x l IH]; simpl; [constructor | now apply insert_sorted].
Qed.

Lemma sort_length l : List.length (sort l) = List.length l.
Proof. symmetry. apply Permutation_length, sort_perm. Qed.

Lemma sort_nonempty v : v <> [] -> sort v <> [].
Proof.
  intros Hne Hs. apply Hne, length_zero_iff_nil.
  rewrite <- sort_length, Hs. reflexivity.
Qed.

(** The element read at a double index [k * c] is the one at the floor of
    that product. *)
Lemma at_double_floor t (k : nat) (c : Q) :
  0 <= c ->
  at_double t (double_of_int (Z.of_nat k) * c)
  = nth (Z.to_nat (Qfloor (inject_Z (Z.of_nat k) * c))) t 0.
Proof.
  intros Hc. unfold at_double, double_of_int.
  rewrite truncate_floor; [reflexivity|].
  apply Qmult_le_0_compat; [apply nonneg_of_nat | exact Hc].
Qed.

(** A rank [floor (k * c)] with [c] below 1 is a valid index into [k]
    observations. *)
Lemma rank_in_range (k : nat) (c : Q) :
  (0 < k)%nat -> 0 <= c -> c < 1 ->
  (Z.to_nat (Qfloor (inject_Z (Z.of_nat k) * c)) < k)%nat.
Proof.
  intros Hk Hc0 Hc1.
  set (x := inject_Z (Z.of_nat k) * c).
  assert (Hkq : 0 < inject_Z (Z.of_nat k)).
  { change 0 with (inject_Z 0). rewrite <- Zlt_Qlt. lia. }
  assert (Hx0 : 0 <= x) by (apply Qmult_le_0_compat; [lra | exact Hc0]).
  assert (Hxk : x < inject_Z (Z.of_nat k)).
  { unfold x. rewrite <- (Qmult_1_r (inject_Z (Z.of_nat k))) at 2.
    apply Qmult_lt_l; assumption. }
  assert (Hf0 : (0 <= Qfloor x)%Z).
  { change 0%Z with (Qfloor 0). now apply Qfloor_resp_le. }
  assert (Hfk : (Qfloor x < Z.of_nat k)%Z).
  { rewrite Zlt_Qlt. eapply Qle_lt_trans; [apply Qfloor_le | exact Hxk]. }
  lia.
Qed.

Lemma nth_sort_In v i : (i < List.length v)%nat -> In (nth i (sort v) 0) v.
Proof.
  intros Hi. apply (Permutation_in _ (Permutation_sym (sort_perm v))).
  apply nth_In. now rewrite sort_length.
Qed.

Section Statistics.

Variable calculateMean : list Q -> Q.
Variable calculateSampleSD : list Q -> Q.

Lemma add_defined self v :
  v <> [] -> exists s, add calculateMean calculateSampleSD self v = Some s.
Proof.
  intros Hne. unfold add.
  destruct (sort v) as [|x t] eqn:Hs; [|eexists; reflexivity].
  now apply sort_nonempty in Hne.
Qed.

(** C7.  On a non-empty vector [add] succeeds and stores the size of the
    vector in [n] and, with [sorted] the ascending rearrangement of the
    vector, [sorted[0]] in [min], [sorted[n-1]] in [max] and
    [sorted[floor (n * 1/4)]], [sorted[floor (n * 1/2)]],
    [sorted[floor (n * 3/4)]] in [q1], [median], [q3]; the five values are
    observations of the vector, nothing is interpolated. *)
Theorem add_nearest_rank (self : Summary) (v : list Q) :
  v <> [] ->
  exists s,
    add calculateMean calculateSampleSD self v = Some s /\
    let sorted := sort v in
    let size := List.length v in
    Permutation v sorted /\ Sorted Qle sorted /\
    n s = Z.of_nat size /\
    min s = nth 0 sorted 0 /\
    max s = nth (size - 1) sorted 0 /\
    q1 s = nth (Z.to_nat (Qfloor (inject_Z (Z.of_nat size) * (1 # 4))))
               sorted 0 /\
    median s = nth (Z.to_nat (Qfloor (inject_Z (Z.of_nat size) * (1 # 2))))
                   sorted 0 /\
    q3 s = nth (Z.to_nat (Qfloor (inject_Z (Z.of_nat size) * (3 # 4))))
               sorted 0 /\
    Forall (fun x => In x v) [min s; q1 s; median s; q3 s; max s].
Proof.
  intros Hne.
  assert (Hlen : (0 < List.length v)%nat).
  { destruct v; [congruence | simpl; lia]. }
  unfold add. destruct (sort v) as [|x t] eqn:Hs.
  - now apply sort_nonempty in Hne.
  - eexists. split; [reflexivity|]. rewrite <- Hs.
    cbn [n min max q1 median q3].
    rewrite !at_double_floor by discriminate.
    replace (Z.to_nat (Z.of_nat (List.length v) - 1))
      with (List.length v - 1)%nat by lia.
    split; [apply sort_perm|]. split; [apply sort_sorted|].
    do 6 (split; [reflexivity|]).
    repeat constructor; apply nth_sort_In;
      try (apply rank_in_range; [exact Hlen | discriminate | reflexivity]);
      lia.
Qed.

End Statistics.

Lemma add_nearest_rank_witness :
  let v := [1; 2; 3; 4; 5] in
  v <> [] /\
  exists s,
    add arithmetic_mean sample_sd Summary_new v = Some s /\
    n s = 5%Z /\ min s = 1 /\ q1 s = 2 /\ median s = 3 /\ q3 s = 4 /\
    max s = 5.
Proof.
  intros v.
  assert (Hne : v <> []) by discriminate.
  split; [exact Hne|].
  destruct (add_nearest_rank arithmetic_mean sample_sd Summary_new v Hne)
    as (s & Hadd & _ & _ & Hn & Hmin & Hmax & Hq1 & Hmed & Hq3 & _).
  exists s. split; [exact Hadd|].
  split; [exact Hn|]. split; [exact Hmin|]. split; [exact Hq1|].
  split; [exact Hmed|]. split; [exact Hq3 | exact Hmax].
Defined.

(** The same summary from the observations in another order, with the mean
    of the modelled [calculateMean]. *)
Example add_unsorted :
  option_map (fun s => (n s, min s, q1 s, median s, q3 s, max s,
                        Qred (mean s)))
    (add arithmetic_mean sample_sd Summary_new [4; 1; 5; 3; 2])
  = Some (5%Z, 1, 2, 3, 4, 5, 3).
Proof. reflexivity. Qed.

End SummaryFacts.

(** ** The report header *)

Module HeaderFacts.

Lemma column_nonempty m col : (0 < rows m)%nat -> column m col <> [].
Proof.
  intros Hr Hnil. apply (f_equal (@List.length Q)) in Hnil.
  unfold column in Hnil. rewrite length_map, length_seq in Hnil.
  simpl in Hnil. lia.
Qed.

Section Statistics.

Variable calculateMean : list Q -> Q.
Variable calculateSampleSD : list Q -> Q.

(** The column loop of [recordCovariate], started from any header [h]:
    labels and summaries are appended in column order, one of each per
    column, and the other fields are carried along. *)
Lemma record_columns m (l : list nat) : (0 < rows m)%nat -> forall h,
  exists h',
    for_each
      (fun self i =>
         recordCovariateColumn calculateMean calculateSampleSD
           (push_covLabel self (GetColumnLabel m i)) m i)
      l h = Some h' /\
    covLabel h' = covLabel h ++ map (GetColumnLabel m) l /\
    (exists ss, cov h' = cov h ++ ss /\
       Forall2 (fun i s => add calculateMean calculateSampleSD Summary_new
                             (column m i) = Some s) l ss) /\
    phenoLabel h' = phenoLabel h /\ pheno h' = pheno h /\
    inverseNormalized h' = inverseNormalized h.
Proof.
  intros Hr. induction l as [|i l IH]; intros h; simpl.
  - exists h. rewrite app_nil_r. repeat split.
    exists []. rewrite app_nil_r. split; [reflexivity | constructor].
  - unfold recordCovariateColumn at 1. fold (column m i).
    destruct (SummaryFacts.add_defined calculateMean calculateSampleSD
                Summary_new (column m i) (column_nonempty m i Hr))
      as [s Hs].
    rewrite Hs. cbn [bind].
    match goal with
    | |- context [for_each _ l ?h0] =>
        destruct (IH h0)
          as (h' & Hrun & Hlab & (ss & Hcov & Hall) & Hpl & Hp & Hinv)
    end.
    cbn [phenoLabel pheno inverseNormalized covLabel cov push_covLabel] in *.
    exists h'. split; [exact Hrun|].
    split; [rewrite Hlab, <- app_assoc; reflexivity|].
    split; [|now repeat split].
    exists (s :: ss). split; [rewrite Hcov, <- app_assoc; reflexivity|].
    constructor; assumption.
Qed.

(** C10.  A call of [recordCovariate] on a matrix with at least one row (or
    with no column at all) succeeds, and in the header it returns the
    covariate labels are exactly the column labels of the matrix, in column
    order, and the covariate summaries are exactly the summaries of its
    columns, one per column: nothing recorded before survives.  The
    phenotype labels, the phenotype summaries and the inverse-normal flag
    are those of the header before the call. *)
Theorem recordCovariate_replaces (self : SummaryHeader) (m : Matrix) :
  (0 < rows m)%nat \/ cols m = 0%nat ->
  exists h',
    recordCovariate calculateMean calculateSampleSD self m = Some h' /\
    covLabel h' = map (GetColumnLabel m) (seq 0 (cols m)) /\
    Forall2 (fun i s => add calculateMean calculateSampleSD Summary_new
                          (column m i) = Some s)
            (seq 0 (cols m)) (cov h') /\
    List.length (covLabel h') = cols m /\ List.length (cov h') = cols m /\
    phenoLabel h' = phenoLabel self /\ pheno h' = pheno self /\
    inverseNormalized h' = inverseNormalized self.
Proof.
  intros [Hr | Hc]; unfold recordCovariate.
  - destruct (record_columns m (seq 0 (cols m)) Hr (clear_cov self))
      as (h' & Hrun & Hlab & (ss & Hcov & Hall) & Hpl & Hp & Hinv).
    exists h'. simpl in Hlab, Hcov. subst ss.
    split; [exact Hrun|]. split; [exact Hlab|]. split; [exact Hall|].
    split; [rewrite Hlab, length_map, length_seq; reflexivity|].
    split; [rewrite <- (Forall2_length Hall), length_seq; reflexivity|].
    now repeat split.
  - rewrite Hc. simpl. eexists. split; [reflexivity|]. simpl.
    repeat split. constructor.
Qed.

End Statistics.

Lemma recordCovariate_replaces_witness :
  ((0 < rows age_matrix)%nat \/ cols age_matrix = 0%nat) /\
  exists h',
    recordCovariate arithmetic_mean sample_sd used_header age_matrix
    = Some h' /\
    covLabel h' = ["AGE"%string] /\ List.length (cov h') = 1%nat /\
    phenoLabel h' = ["Y"%string] /\ pheno h' = [Summary_new] /\
    inverseNormalized h' = true.
Proof.
  assert (H : (0 < rows age_matrix)%nat \/ cols age_matrix = 0%nat)
    by (left; simpl; lia).
  split; [exact H|].
  destruct (recordCovariate_replaces arithmetic_mean sample_sd used_header
              age_matrix H)
    as (h' & Hrun & Hlab & _ & _ & Hlen & Hpl & Hp & Hinv).
  exists h'. split; [exact Hrun|]. split; [exact Hlab|].
  split; [exact Hlen|]. split; [exact Hpl|]. split; [exact Hp | exact Hinv].
Defined.

(** The summary recorded for the AGE column has minimum 10 and maximum
    40. *)
Example recordCovariate_age :
  option_map (fun h => (covLabel h, map (fun s => (min s, max s)) (cov h)))
    (recordCovariate arithmetic_mean sample_sd used_header age_matrix)
  = Some (["AGE"%string], [(10, 40)]).
Proof. reflexivity. Qed.

End HeaderFacts.

(** ** More on the allele-frequency estimators *)

Module FrequencyMore.

Lemma Qsum_cons f m ms : Qsum f (m :: ms) = f m + Qsum f ms.
Proof. reflexivity. Qed.

Lemma Qsum_nonneg (g : nat -> Q) ps :
  (forall p, In p ps -> 0 <= g p) -> 0 <= Qsum g ps.
Proof.
  induction ps as [|p ps IH]; intros H.
  - apply Qle_refl.
  - rewrite Qsum_cons.
    assert (0 <= g p) by (apply H; now left).
    assert (0 <= Qsum g ps) by (apply IH; intros q Hq; apply H; now right).
    lra.
Qed.

Lemma Qsum_bounds (g : nat -> Q) (lo hi : Q) ps :
  (forall p, In p ps -> lo <= g p /\ g p <= hi) ->
  lo * inject_Z (Z.of_nat (List.length ps)) <= Qsum g ps /\
  Qsum g ps <= hi * inject_Z (Z.of_nat (List.length ps)).
Proof.
  induction ps as [|p ps IH]; intros H.
  - change (lo * 0 <= 0 /\ 0 <= hi * 0). split; lra.
  - rewrite Qsum_cons. cbn [List.length]. rewrite Nat2Z.inj_succ.
    unfold Z.succ. rewrite inject_Z_plus. change (inject_Z 1) with 1.
    destruct (H p (or_introl eq_refl)) as [Hlo Hhi].
    destruct IH as [IHlo IHhi]; [intros q Hq; apply H; now right|].
    split; lra.
Qed.

(** The accumulation loop of both estimators, for any test [keep]: the
    allele count grows by the kept genotypes, the allele number by 2 for
    each of them. *)
Lemma accumulate_closed (keep : nat -> bool) (g : nat -> Q)
    (step : Q * Z -> nat -> Q * Z) :
  (forall ac an p,
     step (ac, an) p = if keep p then (ac + g p, (an + 2)%Z) else (ac, an)) ->
  forall ps ac an,
    fst (fold_left step ps (ac, an)) == ac + Qsum g (filter keep ps) /\
    snd (fold_left step ps (ac, an))
    = (an + 2 * Z.of_nat (List.length (filter keep ps)))%Z.
Proof.
  intros Hstep. induction ps as [|p ps IH]; intros ac an;
    cbn [fold_left filter].
  - cbn. split; [ring | lia].
  - rewrite Hstep. destruct (keep p).
    + destruct (IH (ac + g p) (an + 2)%Z) as [-> ->].
      rewrite Qsum_cons. cbn [List.length]. rewrite Nat2Z.inj_succ.
      split; [ring | lia].
    + apply IH.
Qed.

Lemma freq_step_closed inp col ps ac an :
  fst (fold_left (freq_step inp col) ps (ac, an))
  == ac + Qsum (fun p => inp@[p, col]) (filter (counted inp col) ps) /\
  snd (fold_left (freq_step inp col) ps (ac, an))
  = (an + 2 * Z.of_nat (List.length (filter (counted inp col) ps)))%Z.
Proof. apply accumulate_closed. reflexivity. Qed.

Lemma freq_control_step_closed inp pheno col ps ac an :
  fst (fold_left (freq_control_step inp pheno col) ps (ac, an))
  == ac + Qsum (fun p => inp@[p, col])
             (filter (informative inp pheno col) ps) /\
  snd (fold_left (freq_control_step inp pheno col) ps (ac, an))
  = (an + 2 * Z.of_nat
            (List.length (filter (informative inp pheno col) ps)))%Z.
Proof.
  apply accumulate_closed. intros ac' an' p.
  unfold freq_control_step, informative.
  destruct (Qeq_bool _ 1); simpl; [reflexivity|].
  destruct (Qle_bool 0 _); reflexivity.
Qed.

Lemma getMarkerFrequency_sum (inp : Matrix) (col : nat) :
  let people := filter (counted inp col) (seq 0 (rows inp)) in
  getMarkerFrequency inp col ==
  match people with
  | [] => 0
  | _ :: _ => Qsum (fun p => inp@[p, col]) people
              / inject_Z (2 * Z.of_nat (List.length people))
  end.
Proof.
  intros people. unfold getMarkerFrequency, for_loop.
  destruct (freq_step_closed inp col (seq 0 (rows inp)) 0 0%Z) as [Hac Han].
  fold people in Hac, Han.
  destruct (fold_left _ _ _) as [ac an]. cbn [fst snd] in Hac, Han. subst an.
  destruct people as [|p ps].
  - reflexivity.
  - replace (_ =? 0)%Z with false
      by (symmetry; apply Z.eqb_neq; cbn [List.length]; lia).
    unfold double_of_int. rewrite Hac, Z.add_0_l, Qplus_0_l. reflexivity.
Qed.

Lemma getMarkerFrequencyFromControl_sum (inp : Matrix) (pheno : Vector)
    (col : nat) :
  let people := filter (informative inp pheno col) (seq 0 (rows inp)) in
  getMarkerFrequencyFromControl inp pheno col ==
  (Qsum (fun p => inp@[p, col]) people + 1)
  / inject_Z (2 * Z.of_nat (List.length people) + 2).
Proof.
  intros people. unfold getMarkerFrequencyFromControl, for_loop.
  destruct (freq_control_step_closed inp pheno col (seq 0 (rows inp)) 0 0%Z)
    as [Hac Han].
  fold people in Hac, Han.
  destruct (fold_left _ _ _) as [ac an]. cbn [fst snd] in Hac, Han. subst an.
  unfold double_of_int. rewrite Hac, Z.add_0_l, Qplus_0_l, Qmult_1_l.
  reflexivity.
Qed.

(** The test of the loop, on the genotype itself. *)
Lemma counted_present inp col p : counted inp col p = present inp col p.
Proof.
  apply eq_true_iff_eq. unfold counted, present, Qlt_bool.
  rewrite Z.leb_le, int_of_double_nonneg, andb_true_iff, !negb_true_iff,
    <- !not_true_iff_false, !Qle_bool_iff.
  split; intros [H1 H2]; split;
    first [now apply Qlt_not_le | now apply Qnot_le_lt].
Qed.

(** X1.  [getMarkerFrequency] returns 0 when no sample of the column has a
    genotype above -1 and below 2^31 (a genotype whose cast to [int] is 0
    or more), and otherwise the sum of the genotypes of those samples
    divided by twice their number. *)
Theorem getMarkerFrequency_closed (inp : Matrix) (col : nat) :
  let people := filter (present inp col) (seq 0 (rows inp)) in
  (people = [] -> getMarkerFrequency inp col = 0) /\
  (people <> [] ->
   getMarkerFrequency inp col ==
   Qsum (fun p => inp@[p, col]) people
   / inject_Z (2 * Z.of_nat (List.length people))).
Proof.
  intros people.
  assert (Hpeople : filter (counted inp col) (seq 0 (rows inp)) = people)
    by (apply filter_ext; intros p; apply counted_present).
  split.
  - intros Hnil. unfold getMarkerFrequency, for_loop.
    destruct (freq_step_closed inp col (seq 0 (rows inp)) 0 0%Z) as [_ Han].
    rewrite Hpeople, Hnil in Han.
    destruct (fold_left _ _ _) as [ac an]. cbn in Han. now subst an.
  - intros Hne. pose proof (getMarkerFrequency_sum inp col) as H.
    cbv zeta in H. rewrite Hpeople in H.
    destruct people; [congruence | exact H].
Qed.

Example getMarkerFrequency_beyond_int :
  getMarkerFrequency (Matrix_of_rows [[3000000000]; [1]; [-1 # 2]; [-9]]) 0
  == 1 # 8.
Proof. reflexivity. Qed.

(** X2.  When every genotype of the column is either at most -1 (a missing
    code) or between 0 and 2, the frequency returned by
    [getMarkerFrequency] lies between 0 and 1. *)
Theorem getMarkerFrequency_range (inp : Matrix) (col : nat) :
  (forall p, (p < rows inp)%nat ->
             inp@[p, col] <= -1 \/ (0 <= inp@[p, col] /\ inp@[p, col] <= 2)) ->
  0 <= getMarkerFrequency inp col /\ getMarkerFrequency inp col <= 1.
Proof.
  intros H. rewrite getMarkerFrequency_sum.
  set (people := filter (counted inp col) (seq 0 (rows inp))).
  assert (Hin : forall p, In p people ->
                          0 <= inp@[p, col] /\ inp@[p, col] <= 2).
  { intros p Hp. apply filter_In in Hp as [Hp Hc]. apply in_seq in Hp.
    destruct (H p) as [Hmiss | Hok]; [lia | | exact Hok].
    apply int_of_double_missing in Hmiss. unfold counted in Hc.
    apply Z.leb_le in Hc. lia. }
  destruct (Qsum_bounds (fun p => inp@[p, col]) 0 2 people Hin) as [Hlo Hhi].
  destruct people as [|p ps] eqn:E; [split; lra|]. rewrite <- E in *.
  assert (Hlen : 0 < inject_Z (Z.of_nat (List.length people))).
  { change 0 with (inject_Z 0). rewrite <- Zlt_Qlt.
    rewrite E. cbn [List.length]. lia. }
  rewrite inject_Z_mult. change (inject_Z 2) with 2.
  split.
  - apply Qle_shift_div_l; lra.
  - apply Qle_shift_div_r; lra.
Qed.

Lemma getMarkerFrequency_range_witness :
  let inp := Matrix_of_rows [[-9]; [1]; [2]; [0]] in
  (forall p, (p < rows inp)%nat ->
             inp@[p, 0] <= -1 \/ (0 <= inp@[p, 0] /\ inp@[p, 0] <= 2)) /\
  0 <= getMarkerFrequency inp 0 /\ getMarkerFrequency inp 0 <= 1.
Proof.
  intros inp.
  assert (H : forall p, (p < rows inp)%nat ->
                inp@[p, 0] <= -1 \/ (0 <= inp@[p, 0] /\ inp@[p, 0] <= 2)).
  { intros p Hp. simpl in Hp.
    destruct p as [|[|[|[|p]]]]; [left | right | right | right | lia];
      try split; discriminate. }
  split; [exact H | apply (getMarkerFrequency_range inp 0 H)].
Defined.

(** X3.  [getMarkerFrequencyFromControl] returns (s + 1) / (2 k + 2), where
    k is the number of samples that are not cases and have a genotype of 0
    or more, and s is the sum of their genotypes. *)
Theorem getMarkerFrequencyFromControl_closed (inp : Matrix) (pheno : Vector)
    (col : nat) :
  let people := filter (informative inp pheno col) (seq 0 (rows inp)) in
  getMarkerFrequencyFromControl inp pheno col ==
  (Qsum (fun p => inp@[p, col]) people + 1)
  / inject_Z (2 * Z.of_nat (List.length people) + 2) /\
  (people = [] -> getMarkerFrequencyFromControl inp pheno col == 1 # 2).
Proof.
  intros people. pose proof (getMarkerFrequencyFromControl_sum inp pheno col)
    as H. cbv zeta in H. fold people in H.
  split; [exact H|]. intros Hnil. rewrite H, Hnil. reflexivity.
Qed.

(** X4.  The control-based estimate is above 0 for every genotype matrix,
    phenotype vector and column: only genotypes of 0 or more are ever
    added to the allele count. *)
Theorem getMarkerFrequencyFromControl_positive (inp : Matrix)
    (pheno : Vector) (col : nat) :
  0 < getMarkerFrequencyFromControl inp pheno col.
Proof.
  rewrite getMarkerFrequencyFromControl_sum.
  set (people := filter (informative inp pheno col) (seq 0 (rows inp))).
  assert (Hs : 0 <= Qsum (fun p => inp@[p, col]) people).
  { apply Qsum_nonneg. intros p Hp. apply filter_In in Hp as [_ Hp].
    unfold informative in Hp. apply andb_prop in Hp as [_ Hp].
    now apply Qle_bool_iff. }
  apply Qlt_shift_div_l; [|lra].
  change 0 with (inject_Z 0). rewrite <- Zlt_Qlt. lia.
Qed.

Lemma freq_control_step_agree inp1 inp2 pheno col ps :
  (forall p, In p ps -> pheno@[p] == 1 \/ inp1@[p, col] == inp2@[p, col]) ->
  forall ac1 ac2 an,
    ac1 == ac2 ->
    fst (fold_left (freq_control_step inp1 pheno col) ps (ac1, an))
    == fst (fold_left (freq_control_step inp2 pheno col) ps (ac2, an)) /\
    snd (fold_left (freq_control_step inp1 pheno col) ps (ac1, an))
    = snd (fold_left (freq_control_step inp2 pheno col) ps (ac2, an)).
Proof.
  induction ps as [|p ps IH]; intros H ac1 ac2 an Hac; cbn [fold_left].
  - now split.
  - assert (Hrest : forall q, In q ps ->
              pheno@[q] == 1 \/ inp1@[q, col] == inp2@[q, col])
      by (intros q Hq; apply H; now right).
    change (freq_control_step inp1 pheno col (ac1, an) p)
      with (if Qeq_bool pheno@[p] 1 then (ac1, an)
            else if Qle_bool 0 inp1@[p, col]
                 then (ac1 + inp1@[p, col], (an + 2)%Z) else (ac1, an)).
    change (freq_control_step inp2 pheno col (ac2, an) p)
      with (if Qeq_bool pheno@[p] 1 then (ac2, an)
            else if Qle_bool 0 inp2@[p, col]
                 then (ac2 + inp2@[p, col], (an + 2)%Z) else (ac2, an)).
    destruct (Qeq_bool pheno@[p] 1) eqn:Hcase; [now apply IH|].
    destruct (H p (or_introl eq_refl)) as [Hc | Hg].
    { apply Qeq_bool_iff in Hc. congruence. }
    rewrite Hg.
    destruct (Qle_bool 0 inp2@[p, col]); apply IH; try assumption.
    now rewrite Hac, Hg.
Qed.

(** X5.  The control-based estimate does not look at the genotypes of the
    cases: two matrices with the same number of rows that agree on the
    column at every sample whose phenotype is not 1 get the same
    estimate. *)
Theorem getMarkerFrequencyFromControl_ignores_cases (inp1 inp2 : Matrix)
    (pheno : Vector) (col : nat) :
  rows inp1 = rows inp2 ->
  (forall p, (p < rows inp1)%nat ->
             pheno@[p] == 1 \/ inp1@[p, col] == inp2@[p, col]) ->
  getMarkerFrequencyFromControl inp1 pheno col
  == getMarkerFrequencyFromControl inp2 pheno col.
Proof.
  intros Hrows H. unfold getMarkerFrequencyFromControl, for_loop.
  rewrite <- Hrows.
  destruct (freq_control_step_agree inp1 inp2 pheno col (seq 0 (rows inp1)))
    with (ac1 := 0) (ac2 := 0) (an := 0%Z) as [Hac Han].
  { intros p Hp. apply H. apply in_seq in Hp. lia. }
  { reflexivity. }
  destruct (fold_left _ _ _) as [ac1 an1].
  destruct (fold_left _ _ _) as [ac2 an2].
  cbn [fst snd] in Hac, Han. subst an2. now rewrite Hac.
Qed.

Lemma getMarkerFrequencyFromControl_ignores_cases_witness :
  let inp1 := Matrix_of_rows [[0]; [2]; [1]] in
  let inp2 := Matrix_of_rows [[0]; [0]; [1]] in
  let pheno := Vector_of_list [0; 1; 0] in
  rows inp1 = rows inp2 /\
  (forall p, (p < rows inp1)%nat ->
             pheno@[p] == 1 \/ inp1@[p, 0] == inp2@[p, 0]) /\
  getMarkerFrequencyFromControl inp1 pheno 0
  == getMarkerFrequencyFromControl inp2 pheno 0.
Proof.
  intros inp1 inp2 pheno.
  assert (Hr : rows inp1 = rows inp2) by reflexivity.
  assert (H : forall p, (p < rows inp1)%nat ->
                pheno@[p] == 1 \/ inp1@[p, 0] == inp2@[p, 0]).
  { intros p Hp. simpl in Hp.
    destruct p as [|[|[|p]]]; [right | left | right | lia]; reflexivity. }
  split; [exact Hr|]. split; [exact H|].
  apply (getMarkerFrequencyFromControl_ignores_cases inp1 inp2 pheno 0 Hr H).
Defined.

End FrequencyMore.

(** ** More on the counting methods *)

Module CollapseMore.

Lemma cmc_loop_shape inp ms oi n out :
  rows (for_loop n (fun out p => cmc_scan inp p ms out oi) out) = rows out /\
  cols (for_loop n (fun out p => cmc_scan inp p ms out oi) out) = cols out.
Proof.
  apply (for_loop_invariant (fun o => rows o = rows out /\ cols o = cols out));
    [now split|].
  intros o p _ [Hr Hc].
  destruct (CmcFacts.cmc_scan_shape inp p ms o oi) as [-> ->]. now split.
Qed.

Lemma zeggini_step_shape inp p out m :
  rows (zeggini_step inp p out m) = rows out /\
  cols (zeggini_step inp p out m) = cols out.
Proof. unfold zeggini_step. destruct (nonref inp p m); now split. Qed.

Lemma zeggini_loop_shape inp n k out :
  rows (for_loop n (fun out p => for_loop k (zeggini_step inp p) out) out)
  = rows out /\
  cols (for_loop n (fun out p => for_loop k (zeggini_step inp p) out) out)
  = cols out.
Proof.
  apply (for_loop_invariant (fun o => rows o = rows out /\ cols o = cols out));
    [now split|].
  intros o p _ Ho.
  apply (for_loop_invariant (fun o' => rows o' = rows out /\ cols o' = cols out));
    [exact Ho|].
  intros o' m _ [Hr Hc].
  destruct (zeggini_step_shape inp p o' m) as [-> ->]. now split.
Qed.

(** X6.  [cmcCollapse] and [zegginiCollapse] return a matrix with as many
    rows as the genotype matrix and one column; what the output matrix
    held before the call has no influence on any cell, and every cell
    outside the score column is 0. *)
Theorem counting_collapse_fresh (inp out out' : Matrix) :
  (rows (cmcCollapse inp out) = rows inp /\ cols (cmcCollapse inp out) = 1%nat /\
   forall i j, (cmcCollapse inp out)@[i, j] = (cmcCollapse inp out')@[i, j] /\
               ((rows inp <= i)%nat \/ j <> 0%nat ->
                (cmcCollapse inp out)@[i, j] = 0)) /\
  (rows (zegginiCollapse inp out) = rows inp /\
   cols (zegginiCollapse inp out) = 1%nat /\
   forall i j, (zegginiCollapse inp out)@[i, j]
               == (zegginiCollapse inp out')@[i, j] /\
               ((rows inp <= i)%nat \/ j <> 0%nat ->
                (zegginiCollapse inp out)@[i, j] == 0)).
Proof.
  split.
  - split; [apply (cmc_loop_shape inp _ _ _ (Zero (Dimension out (rows inp) 1)))|].
    split; [apply (cmc_loop_shape inp _ _ _ (Zero (Dimension out (rows inp) 1)))|].
    intros i j. rewrite !CmcFacts.cmcCollapse_elem. split; [reflexivity|].
    intros [Hi | Hj].
    + apply Nat.ltb_ge in Hi. now rewrite Hi.
    + apply Nat.eqb_neq in Hj. now rewrite Hj, andb_false_r.
  - split; [apply (zeggini_loop_shape inp _ _ (Zero (Dimension out (rows inp) 1)))|].
    split; [apply (zeggini_loop_shape inp _ _ (Zero (Dimension out (rows inp) 1)))|].
    intros i j. rewrite !ZegginiFacts.zegginiCollapse_elem. split; [reflexivity|].
    intros [Hi | Hj].
    + apply Nat.ltb_ge in Hi. rewrite Hi. reflexivity.
    + apply Nat.eqb_neq in Hj. rewrite Hj, andb_false_r. reflexivity.
Qed.

Lemma cmcCollapse_index_run inp index out outIndex :
  rows out = rows inp -> (outIndex < cols out)%nat ->
  exists out',
    cmcCollapse_index inp index out outIndex = Some out' /\
    rows out' = rows out /\ cols out' = cols out /\
    forall i j,
      out'@[i, j] =
      if (i <? rows inp)%nat && (j =? outIndex)%nat
         && existsb (nonref inp i) index
      then 1 else out@[i, j].
Proof.
  intros Hr Hc.
  destruct (CmcFacts.cmcCollapse_index_elem inp index out outIndex Hr Hc)
    as (out' & Hrun & Hcell).
  exists out'. split; [exact Hrun|].
  unfold cmcCollapse_index in Hrun.
  destruct (negb _); [discriminate|]. destruct (negb _); [discriminate|].
  injection Hrun as <-.
  destruct (cmc_loop_shape inp index outIndex (rows inp) out) as [H1 H2].
  split; [exact H1|]. split; [exact H2 | exact Hcell].
Qed.

(** X8.  Collapsing the markers [index1] and then the markers [index2]
    into the same column leaves every cell as one call with the markers
    [index1 ++ index2] does. *)
Theorem cmcCollapse_index_app (inp : Matrix) (index1 index2 : list nat)
    (out : Matrix) (outIndex : nat) :
  rows out = rows inp -> (outIndex < cols out)%nat ->
  exists o1 o2 o12,
    cmcCollapse_index inp index1 out outIndex = Some o1 /\
    cmcCollapse_index inp index2 o1 outIndex = Some o2 /\
    cmcCollapse_index inp (index1 ++ index2) out outIndex = Some o12 /\
    forall i j, o2@[i, j] = o12@[i, j].
Proof.
  intros Hr Hc.
  destruct (cmcCollapse_index_run inp index1 out outIndex Hr Hc)
    as (o1 & Hrun1 & Hr1 & Hc1 & Hcell1).
  destruct (cmcCollapse_index_run inp index2 o1 outIndex)
    as (o2 & Hrun2 & _ & _ & Hcell2); [congruence | lia |].
  destruct (cmcCollapse_index_run inp (index1 ++ index2) out outIndex Hr Hc)
    as (o12 & Hrun12 & _ & _ & Hcell12).
  exists o1, o2, o12. repeat (split; [assumption|]).
  intros i j. rewrite Hcell2, Hcell12, Hcell1, existsb_app.
  destruct ((i <? rows inp)%nat && (j =? outIndex)%nat),
    (existsb (nonref inp i) index1), (existsb (nonref inp i) index2);
    reflexivity.
Qed.

Lemma cmcCollapse_index_app_witness :
  let inp := Matrix_of_rows [[0; 1; 0]; [0; 0; 2]; [0; 0; 0]] in
  let out := Matrix_of_rows [[0; 0]; [0; 0]; [0; 0]] in
  rows out = rows inp /\ (1 < cols out)%nat /\
  exists o1 o2 o12,
    cmcCollapse_index inp [0%nat; 1%nat] out 1 = Some o1 /\
    cmcCollapse_index inp [2%nat] o1 1 = Some o2 /\
    cmcCollapse_index inp ([0%nat; 1%nat] ++ [2%nat]) out 1 = Some o12 /\
    forall i j, o2@[i, j] = o12@[i, j].
Proof.
  intros inp out.
  assert (Hr : rows out = rows inp) by reflexivity.
  assert (Hc : (1 < cols out)%nat) by (simpl; lia).
  split; [exact Hr|]. split; [exact Hc|].
  exact (cmcCollapse_index_app inp [0%nat; 1%nat] [2%nat] out 1 Hr Hc).
Defined.

(** X9.  Two calls of the indexed [cmcCollapse] that write to different
    columns of the same output matrix can be made in either order: every
    cell ends up the same. *)
Theorem cmcCollapse_index_commute (inp : Matrix) (index1 index2 : list nat)
    (out : Matrix) (k1 k2 : nat) :
  rows out = rows inp -> (k1 < cols out)%nat -> (k2 < cols out)%nat ->
  k1 <> k2 ->
  exists a ab b ba,
    cmcCollapse_index inp index1 out k1 = Some a /\
    cmcCollapse_index inp index2 a k2 = Some ab /\
    cmcCollapse_index inp index2 out k2 = Some b /\
    cmcCollapse_index inp index1 b k1 = Some ba /\
    forall i j, ab@[i, j] = ba@[i, j].
Proof.
  intros Hr Hc1 Hc2 Hne.
  destruct (cmcCollapse_index_run inp index1 out k1 Hr Hc1)
    as (a & Hruna & Hra & Hca & Hcella).
  destruct (cmcCollapse_index_run inp index2 a k2)
    as (ab & Hrunab & _ & _ & Hcellab); [congruence | lia |].
  destruct (cmcCollapse_index_run inp index2 out k2 Hr Hc2)
    as (b & Hrunb & Hrb & Hcb & Hcellb).
  destruct (cmcCollapse_index_run inp index1 b k1)
    as (ba & Hrunba & _ & _ & Hcellba); [congruence | lia |].
  exists a, ab, b, ba. repeat (split; [assumption|]).
  intros i j. rewrite Hcellab, Hcella, Hcellba, Hcellb.
  destruct (Nat.eqb_spec j k1) as [-> | Hj1];
    destruct (Nat.eqb_spec k1 k2) as [E | _]; try contradiction.
  - destruct (Nat.eqb_spec k1 k2); [contradiction|].
    rewrite !andb_false_r. reflexivity.
  - rewrite !andb_false_r. simpl. reflexivity.
Qed.

Lemma cmcCollapse_index_commute_witness :
  let inp := Matrix_of_rows [[0; 1; 0]; [0; 0; 2]; [0; 0; 0]] in
  let out := Matrix_of_rows [[0; 0]; [0; 0]; [0; 0]] in
  rows out = rows inp /\ (0 < cols out)%nat /\ (1 < cols out)%nat /\
  0%nat <> 1%nat /\
  exists a ab b ba,
    cmcCollapse_index inp [0%nat; 1%nat] out 0 = Some a /\
    cmcCollapse_index inp [2%nat] a 1 = Some ab /\
    cmcCollapse_index inp [2%nat] out 1 = Some b /\
    cmcCollapse_index inp [0%nat; 1%nat] b 0 = Some ba /\
    forall i j, ab@[i, j] = ba@[i, j].
Proof.
  intros inp out.
  assert (Hr : rows out = rows inp) by reflexivity.
  assert (Hc0 : (0 < cols out)%nat) by (simpl; lia).
  assert (Hc1 : (1 < cols out)%nat) by (simpl; lia).
  assert (Hne : 0%nat <> 1%nat) by discriminate.
  split; [exact Hr|]. split; [exact Hc0|]. split; [exact Hc1|].
  split; [exact Hne|].
  exact (cmcCollapse_index_commute inp [0%nat; 1%nat] [2%nat] out 0 1
           Hr Hc0 Hc1 Hne).
Defined.

(** X10.  On the same genotype matrix the CMC score of a sample is 1.0
    exactly when its Morris-Zeggini score is above 0. *)
Theorem cmc_iff_zeggini_positive (inp out1 out2 : Matrix) (p : nat) :
  (cmcCollapse inp out1)@[p, 0] = 1 <-> 0 < (zegginiCollapse inp out2)@[p, 0].
Proof.
  rewrite CmcFacts.cmcCollapse_elem, ZegginiFacts.zegginiCollapse_elem.
  destruct ((p <? rows inp)%nat && (0 =? 0)%nat) eqn:Hp; simpl.
  - unfold count_nonref.
    destruct (existsb (nonref inp p) (seq 0 (cols inp))) eqn:Hex.
    + split; [intros _ | reflexivity].
      apply existsb_exists in Hex as (m & Hm & Hnr).
      assert (Hin : In m (filter (nonref inp p) (seq 0 (cols inp))))
        by (apply filter_In; now split).
      destruct (filter _ _) as [|x l]; [destruct Hin|].
      cbn [List.length]. change 0 with (inject_Z 0). rewrite <- Zlt_Qlt. lia.
    + split; [discriminate|]. intros Hpos. exfalso.
      destruct (filter _ _) as [|x l] eqn:Hf; [discriminate Hpos|].
      assert (Hin : In x (filter (nonref inp p) (seq 0 (cols inp))))
        by (rewrite Hf; now left).
      apply filter_In in Hin as [Hx Hnr].
      assert (Ht : existsb (nonref inp p) (seq 0 (cols inp)) = true)
        by (apply existsb_exists; now exists x).
      congruence.
  - split; discriminate.
Qed.

(** X11.  A Morris-Zeggini score lies between 0 and the number of
    markers. *)
Theorem zegginiCollapse_bounds (inp out : Matrix) (p : nat) :
  0 <= (zegginiCollapse inp out)@[p, 0] /\
  (zegginiCollapse inp out)@[p, 0] <= inject_Z (Z.of_nat (cols inp)).
Proof.
  rewrite ZegginiFacts.zegginiCollapse_elem.
  assert (Hlen : (count_nonref inp p (seq 0 (cols inp)) <= cols inp)%nat).
  { unfold count_nonref.
    pose proof (filter_length_le (nonref inp p) (seq 0 (cols inp))) as H.
    now rewrite length_seq in H. }
  destruct (_ && _).
  - split; [apply nonneg_of_nat | rewrite <- Zle_Qle; lia].
  - split; [apply Qle_refl | apply nonneg_of_nat].
Qed.

End CollapseMore.

(** ** More on the weighted methods *)

Module WeightedMore.

Lemma add_weighted_shape g m w out p :
  rows (add_weighted g m w out p) = rows out /\
  cols (add_weighted g m w out p) = cols out.
Proof. now split. Qed.

Lemma weighted_loop_shape g n k (F W : nat -> Q) out :
  let out' :=
    for_loop k
      (fun out m =>
         if degenerate (F m) then out
         else for_loop n (add_weighted g m (W m)) out) out in
  rows out' = rows out /\ cols out' = cols out.
Proof.
  apply (for_loop_invariant (fun o => rows o = rows out /\ cols o = cols out));
    [now split|].
  intros o m _ Ho. destruct (degenerate (F m)); [exact Ho|].
  apply (for_loop_invariant (fun o' => rows o' = rows out /\ cols o' = cols out));
    [exact Ho|].
  intros o' p _ Ho'. exact Ho'.
Qed.

Lemma Qsum_ext (f g : nat -> Q) ms :
  (forall m, In m ms -> f m == g m) -> Qsum f ms == Qsum g ms.
Proof.
  induction ms as [|m ms IH]; intros H; [reflexivity|].
  cbn [Qsum fold_right]. fold (Qsum f ms) (Qsum g ms).
  rewrite (H m (or_introl eq_refl)), IH; [reflexivity|].
  intros q Hq. apply H. now right.
Qed.

Lemma Qsum_le (f g : nat -> Q) ms :
  (forall m, In m ms -> f m <= g m) -> Qsum f ms <= Qsum g ms.
Proof.
  induction ms as [|m ms IH]; intros H; [apply Qle_refl|].
  cbn [Qsum fold_right]. fold (Qsum f ms) (Qsum g ms).
  apply Qplus_le_compat; [apply H; now left|].
  apply IH. intros q Hq. apply H. now right.
Qed.

Lemma Qsum_zero ms : Qsum (fun _ => 0) ms == 0.
Proof.
  induction ms as [|m ms IH]; [reflexivity|].
  cbn [Qsum fold_right]. fold (Qsum (fun _ : nat => 0) ms). rewrite IH. ring.
Qed.

Section Sqrt.

Variable sqrt : Q -> Q.

(** Every cell of the three outputs. *)
Lemma madsonBrowningCollapse_cells genotype phenotype out i j :
  (madsonBrowningCollapse sqrt genotype phenotype out)@[i, j] ==
  if (i <? rows genotype)%nat && (j =? 0)%nat
  then Qsum (fun m => genotype@[i, m]
                      * weight_control sqrt genotype phenotype m)
            (seq 0 (cols genotype))
  else 0.
Proof.
  unfold madsonBrowningCollapse, for_loop at 1.
  rewrite (WeightedFacts.weighted_markers genotype (rows genotype)
             (getMarkerFrequencyFromControl genotype phenotype)
             (fun m =>
                1 / sqrt (getMarkerFrequencyFromControl genotype phenotype m
                          * (1 - getMarkerFrequencyFromControl
                                   genotype phenotype m)
                          * double_of_int (Z.of_nat (rows genotype))))).
  destruct (_ && _); [|reflexivity]. simpl. unfold weight_control. ring.
Qed.

Lemma fpCollapse_cells inp out i j :
  (fpCollapse sqrt inp out)@[i, j] ==
  if (i <? rows inp)%nat && (j =? 0)%nat
  then Qsum (fun m => inp@[i, m] * weight_uncond sqrt inp m) (seq 0 (cols inp))
  else 0.
Proof.
  unfold fpCollapse, for_loop at 1.
  rewrite (WeightedFacts.weighted_markers inp (rows inp)
             (getMarkerFrequency inp)
             (fun m => 1 / sqrt (getMarkerFrequency inp m
                                 * (1 - getMarkerFrequency inp m)))).
  destruct (_ && _); [|reflexivity]. simpl. unfold weight_uncond. ring.
Qed.

Lemma madsonBrowningCollapse_ptr_cells d out i j :
  (madsonBrowningCollapse_ptr sqrt d out)@[i, j] ==
  if (i <? rows d)%nat && (j =? 0)%nat
  then Qsum (fun m => d@[i, m] * weight_uncond sqrt d m) (seq 0 (cols d))
  else 0.
Proof.
  unfold madsonBrowningCollapse_ptr, for_loop at 1.
  rewrite (WeightedFacts.weighted_markers d (rows d) (getMarkerFrequency d)
             (fun m => 1 / sqrt (getMarkerFrequency d m
                                 * (1 - getMarkerFrequency d m)))).
  destruct (_ && _); [|reflexivity]. simpl. unfold weight_uncond. ring.
Qed.

(** X12.  The three weighted methods return a matrix with as many rows as
    the genotype matrix and one column; what the output matrix held before
    the call has no influence on any cell, and every cell outside the
    score column is 0. *)
Theorem weighted_collapse_fresh (genotype : Matrix) (phenotype : Vector)
    (out out' : Matrix) :
  let mb := madsonBrowningCollapse sqrt genotype phenotype in
  let fp := fpCollapse sqrt genotype in
  let mbp := madsonBrowningCollapse_ptr sqrt genotype in
  (rows (mb out) = rows genotype /\ cols (mb out) = 1%nat /\
   rows (fp out) = rows genotype /\ cols (fp out) = 1%nat /\
   rows (mbp out) = rows genotype /\ cols (mbp out) = 1%nat) /\
  forall i j,
    (mb out)@[i, j] == (mb out')@[i, j] /\
    (fp out)@[i, j] == (fp out')@[i, j] /\
    (mbp out)@[i, j] == (mbp out')@[i, j] /\
    ((rows genotype <= i)%nat \/ j <> 0%nat ->
     (mb out)@[i, j] == 0 /\ (fp out)@[i, j] == 0 /\ (mbp out)@[i, j] == 0).
Proof.
  intros mb fp mbp. split.
  - unfold mb, fp, mbp, madsonBrowningCollapse, fpCollapse,
      madsonBrowningCollapse_ptr.
    repeat split;
      apply (weighted_loop_shape genotype (rows genotype) (cols genotype)
               _ _ (Zero (Dimension out (rows genotype) 1))).
  - intros i j. unfold mb, fp, mbp.
    rewrite !madsonBrowningCollapse_cells, ?madsonBrowningCollapse_ptr_cells,
      ?fpCollapse_cells.
    repeat (split; [reflexivity|]).
    intros Hout.
    assert (Hb : (i <? rows genotype)%nat && (j =? 0)%nat = false).
    { destruct Hout as [Hi | Hj].
      - apply Nat.ltb_ge in Hi. now rewrite Hi.
      - apply Nat.eqb_neq in Hj. now rewrite Hj, andb_false_r. }
    rewrite Hb. repeat split; reflexivity.
Qed.

(** X13.  A sample whose genotype is 0 at every marker is scored 0 by the
    three weighted methods, whatever the weights are. *)
Theorem weighted_collapse_zero_row (genotype : Matrix) (phenotype : Vector)
    (out : Matrix) (p : nat) :
  (forall m, (m < cols genotype)%nat -> genotype@[p, m] == 0) ->
  (madsonBrowningCollapse sqrt genotype phenotype out)@[p, 0] == 0 /\
  (fpCollapse sqrt genotype out)@[p, 0] == 0 /\
  (madsonBrowningCollapse_ptr sqrt genotype out)@[p, 0] == 0.
Proof.
  intros Hz.
  assert (Hsum : forall w : nat -> Q,
            Qsum (fun m => genotype@[p, m] * w m) (seq 0 (cols genotype)) == 0).
  { intros w. rewrite <- (Qsum_zero (seq 0 (cols genotype))).
    apply Qsum_ext. intros m Hm. apply in_seq in Hm.
    rewrite Hz by lia. ring. }
  rewrite madsonBrowningCollapse_cells, ?madsonBrowningCollapse_ptr_cells,
    ?fpCollapse_cells.
  destruct (_ && _); [|repeat split; reflexivity].
  repeat split; apply Hsum.
Qed.

Hypothesis sqrt_pos : forall x, 0 < x -> 0 < sqrt x.

Lemma weight_uncond_nonneg inp m : 0 <= weight_uncond sqrt inp m.
Proof.
  destruct (degenerate (getMarkerFrequency inp m)) eqn:Hd.
  - unfold weight_uncond. rewrite Hd. apply Qle_refl.
  - apply Qlt_le_weak, WeightedFacts.weight_uncond_pos; assumption.
Qed.

Lemma weight_control_nonneg genotype phenotype m :
  (0 < rows genotype)%nat -> 0 <= weight_control sqrt genotype phenotype m.
Proof.
  intros Hr.
  destruct (degenerate (getMarkerFrequencyFromControl genotype phenotype m))
    eqn:Hd.
  - unfold weight_control. rewrite Hd. apply Qle_refl.
  - apply Qlt_le_weak, WeightedFacts.weight_control_pos; assumption.
Qed.

End Sqrt.

Lemma weighted_collapse_zero_row_witness :
  let genotype := Matrix_of_rows [[0; 0]; [1; 2]; [2; 2]] in
  let phenotype := Vector_of_list [0; 1; 0] in
  (forall m, (m < cols genotype)%nat -> genotype@[0, m] == 0) /\
  (madsonBrowningCollapse Qsqrt genotype phenotype empty_matrix)@[0, 0] == 0 /\
  (fpCollapse Qsqrt genotype empty_matrix)@[0, 0] == 0 /\
  (madsonBrowningCollapse_ptr Qsqrt genotype empty_matrix)@[0, 0] == 0.
Proof.
  intros genotype phenotype.
  assert (H : forall m, (m < cols genotype)%nat -> genotype@[0, m] == 0).
  { intros m Hm. simpl in Hm. destruct m as [|[|m]]; [| | lia]; reflexivity. }
  split; [exact H|].
  exact (weighted_collapse_zero_row Qsqrt genotype phenotype empty_matrix 0 H).
Defined.


(** X14.  With a square root that is positive on positive arguments, a
    sample whose genotype is at every marker at most that of another
    sample is scored at most as high as that sample, by each of the three
    weighted methods. *)
Theorem weighted_collapse_monotone (sqrt : Q -> Q) (genotype : Matrix)
    (phenotype : Vector) (out : Matrix) (p q : nat) :
  (forall x, 0 < x -> 0 < sqrt x) ->
  (p < rows genotype)%nat -> (q < rows genotype)%nat ->
  (forall m, (m < cols genotype)%nat -> genotype@[p, m] <= genotype@[q, m]) ->
  (madsonBrowningCollapse sqrt genotype phenotype out)@[p, 0]
  <= (madsonBrowningCollapse sqrt genotype phenotype out)@[q, 0] /\
  (fpCollapse sqrt genotype out)@[p, 0]
  <= (fpCollapse sqrt genotype out)@[q, 0] /\
  (madsonBrowningCollapse_ptr sqrt genotype out)@[p, 0]
  <= (madsonBrowningCollapse_ptr sqrt genotype out)@[q, 0].
Proof.
  intros Hsqrt Hp Hq Hle.
  assert (Hr : (0 < rows genotype)%nat) by lia.
  rewrite !madsonBrowningCollapse_cells, ?madsonBrowningCollapse_ptr_cells,
    ?fpCollapse_cells.
  apply Nat.ltb_lt in Hp, Hq. rewrite Hp, Hq. simpl.
  repeat split; apply Qsum_le; intros m Hm; apply in_seq in Hm;
    apply Qmult_le_compat_r; try (apply Hle; lia).
  - now apply weight_control_nonneg.
  - now apply weight_uncond_nonneg.
  - now apply weight_uncond_nonneg.
Qed.

Lemma weighted_collapse_monotone_witness :
  let genotype := Matrix_of_rows [[0; 0]; [1; 2]; [2; 2]] in
  let phenotype := Vector_of_list [0; 1; 0] in
  (forall x, 0 < x -> 0 < Qsqrt x) /\
  (1 < rows genotype)%nat /\ (2 < rows genotype)%nat /\
  (forall m, (m < cols genotype)%nat -> genotype@[1, m] <= genotype@[2, m]) /\
  (madsonBrowningCollapse Qsqrt genotype phenotype empty_matrix)@[1, 0]
  <= (madsonBrowningCollapse Qsqrt genotype phenotype empty_matrix)@[2, 0] /\
  (fpCollapse Qsqrt genotype empty_matrix)@[1, 0]
  <= (fpCollapse Qsqrt genotype empty_matrix)@[2, 0] /\
  (madsonBrowningCollapse_ptr Qsqrt genotype empty_matrix)@[1, 0]
  <= (madsonBrowningCollapse_ptr Qsqrt genotype empty_matrix)@[2, 0].
Proof.
  intros genotype phenotype.
  assert (H1 : (1 < rows genotype)%nat) by (simpl; lia).
  assert (H2 : (2 < rows genotype)%nat) by (simpl; lia).
  assert (H : forall m, (m < cols genotype)%nat ->
                        genotype@[1, m] <= genotype@[2, m]).
  { intros m Hm. simpl in Hm. destruct m as [|[|m]]; [| | lia]; discriminate. }
  split; [exact WeightedFacts.Qsqrt_pos|].
  split; [exact H1|]. split; [exact H2|]. split; [exact H|].
  exact (weighted_collapse_monotone Qsqrt genotype phenotype empty_matrix 1 2
           WeightedFacts.Qsqrt_pos H1 H2 H).
Defined.

(** X15.  With a square root that is positive on positive arguments, a
    sample without a negative genotype gets a score of 0 or more from each
    of the three weighted methods. *)
Theorem weighted_collapse_nonneg (sqrt : Q -> Q) (genotype : Matrix)
    (phenotype : Vector) (out : Matrix) (p : nat) :
  (forall x, 0 < x -> 0 < sqrt x) ->
  (p < rows genotype)%nat ->
  (forall m, (m < cols genotype)%nat -> 0 <= genotype@[p, m]) ->
  0 <= (madsonBrowningCollapse sqrt genotype phenotype out)@[p, 0] /\
  0 <= (fpCollapse sqrt genotype out)@[p, 0] /\
  0 <= (madsonBrowningCollapse_ptr sqrt genotype out)@[p, 0].
Proof.
  intros Hsqrt Hp Hge.
  assert (Hr : (0 < rows genotype)%nat) by lia.
  rewrite !madsonBrowningCollapse_cells, ?madsonBrowningCollapse_ptr_cells,
    ?fpCollapse_cells.
  apply Nat.ltb_lt in Hp. rewrite Hp. simpl.
  repeat split; apply FrequencyMore.Qsum_nonneg; intros m Hm;
    apply in_seq in Hm; apply Qmult_le_0_compat; try (apply Hge; lia).
  - now apply weight_control_nonneg.
  - now apply weight_uncond_nonneg.
  - now apply weight_uncond_nonneg.
Qed.

Lemma weighted_collapse_nonneg_witness :
  let genotype := Matrix_of_rows [[0; 0]; [1; 2]; [2; 2]] in
  let phenotype := Vector_of_list [0; 1; 0] in
  (forall x, 0 < x -> 0 < Qsqrt x) /\
  (1 < rows genotype)%nat /\
  (forall m, (m < cols genotype)%nat -> 0 <= genotype@[1, m]) /\
  0 <= (madsonBrowningCollapse Qsqrt genotype phenotype empty_matrix)@[1, 0] /\
  0 <= (fpCollapse Qsqrt genotype empty_matrix)@[1, 0] /\
  0 <= (madsonBrowningCollapse_ptr Qsqrt genotype empty_matrix)@[1, 0].
Proof.
  intros genotype phenotype.
  assert (H1 : (1 < rows genotype)%nat) by (simpl; lia).
  assert (H : forall m, (m < cols genotype)%nat -> 0 <= genotype@[1, m]).
  { intros m Hm. simpl in Hm. destruct m as [|[|m]]; [| | lia]; discriminate. }
  split; [exact WeightedFacts.Qsqrt_pos|]. split; [exact H1|].
  split; [exact H|].
  exact (weighted_collapse_nonneg Qsqrt genotype phenotype empty_matrix 1
           WeightedFacts.Qsqrt_pos H1 H).
Defined.

(** X16.  When every genotype is at most -1 (every entry is a missing
    code), [getMarkerFrequency] is 0 at every marker, every marker is
    skipped, and [fpCollapse] and the pointer overload of
    [madsonBrowningCollapse] return the zero matrix. *)
Theorem unconditional_all_missing (sqrt : Q -> Q) (inp out : Matrix) :
  (forall p m, (p < rows inp)%nat -> (m < cols inp)%nat -> inp@[p, m] <= -1) ->
  (forall m, (m < cols inp)%nat -> getMarkerFrequency inp m = 0) /\
  forall i j,
    (fpCollapse sqrt inp out)@[i, j] == 0 /\
    (madsonBrowningCollapse_ptr sqrt inp out)@[i, j] == 0.
Proof.
  intros Hmiss.
  assert (Hf : forall m, (m < cols inp)%nat -> getMarkerFrequency inp m = 0).
  { intros m Hm.
    apply FrequencyFacts.getMarkerFrequency_all_truncated_missing.
    intros p Hp. now apply Hmiss. }
  split; [exact Hf|]. intros i j.
  assert (Hsum : Qsum (fun m => inp@[i, m] * weight_uncond sqrt inp m)
                      (seq 0 (cols inp)) == 0).
  { rewrite <- (Qsum_zero (seq 0 (cols inp))).
    apply Qsum_ext. intros m Hm. apply in_seq in Hm.
    unfold weight_uncond. rewrite Hf by lia. simpl. ring. }
  rewrite ?madsonBrowningCollapse_ptr_cells, ?fpCollapse_cells.
  destruct (_ && _); split; try reflexivity; exact Hsum.
Qed.

Lemma unconditional_all_missing_witness :
  let inp := Matrix_of_rows [[-9; -9]; [-9; -1]] in
  (forall p m, (p < rows inp)%nat -> (m < cols inp)%nat -> inp@[p, m] <= -1) /\
  getMarkerFrequency inp 1 = 0 /\
  (fpCollapse Qsqrt inp empty_matrix)@[1, 0] == 0 /\
  (madsonBrowningCollapse_ptr Qsqrt inp empty_matrix)@[1, 0] == 0.
Proof.
  intros inp.
  assert (H : forall p m, (p < rows inp)%nat -> (m < cols inp)%nat ->
                          inp@[p, m] <= -1).
  { intros p m Hp Hm. simpl in Hp, Hm.
    destruct p as [|[|p]]; [| | lia];
      (destruct m as [|[|m]]; [| | lia]); discriminate. }
  split; [exact H|].
  destruct (unconditional_all_missing Qsqrt inp empty_matrix H) as [Hf Hz].
  split; [apply Hf; simpl; lia | exact (Hz 1%nat 0%nat)].
Defined.

End WeightedMore.

(** ** More on the summary statistics *)

Module SummaryMore.

Lemma sorted_nth_le l :
  Sorted Qle l -> forall i j, (i <= j)%nat -> (j < List.length l)%nat ->
  nth i l 0 <= nth j l 0.
Proof.
  intros Hs. apply Sorted_StronglySorted in Hs;
    [|intros x y z; apply Qle_trans].
  induction Hs as [|a l Hs IH Hall]; intros i j Hij Hj; [simpl in Hj; lia|].
  destruct i as [|i], j as [|j]; simpl in *; try lia.
  - apply Qle_refl.
  - rewrite Forall_forall in Hall. apply Hall, nth_In. lia.
  - apply IH; lia.
Qed.

Lemma floor_rank_le (k : nat) (c d : Q) :
  0 <= c -> c <= d ->
  (Z.to_nat (Qfloor (inject_Z (Z.of_nat k) * c))
   <= Z.to_nat (Qfloor (inject_Z (Z.of_nat k) * d)))%nat.
Proof.
  intros Hc Hcd. apply Z2Nat.inj_le.
  - change 0%Z with (Qfloor 0). apply Qfloor_resp_le.
    apply Qmult_le_0_compat; [apply nonneg_of_nat | exact Hc].
  - change 0%Z with (Qfloor 0). apply Qfloor_resp_le.
    apply Qmult_le_0_compat; [apply nonneg_of_nat | lra].
  - apply Qfloor_resp_le. rewrite !(Qmult_comm (inject_Z _)).
    apply Qmult_le_compat_r; [exact Hcd | apply nonneg_of_nat].
Qed.

Lemma insert_proper x x' l l' :
  x == x' -> Forall2 Qeq l l' -> Forall2 Qeq (insert x l) (insert x' l').
Proof.
  intros Hx H. induction H as [|y y' l l' Hy Hl IH]; simpl.
  - repeat constructor. exact Hx.
  - rewrite Hx, Hy. destruct (Qle_bool x' y').
    + constructor; [exact Hx|]. now constructor.
    + constructor; assumption.
Qed.

Lemma Forall2_Qeq_refl l : Forall2 Qeq l l.
Proof. induction l; constructor; [reflexivity | assumption]. Qed.

Lemma Forall2_Qeq_trans l1 l2 l3 :
  Forall2 Qeq l1 l2 -> Forall2 Qeq l2 l3 -> Forall2 Qeq l1 l3.
Proof.
  intros H. revert l3. induction H as [|x y l1 l2 Hxy H IH]; intros l3 H3.
  - exact H3.
  - inversion H3 as [|y' z l2' l3' Hyz H3']; subst.
    constructor; [now rewrite Hxy | now apply IH].
Qed.

Lemma Qle_bool_false x y : Qle_bool x y = false -> y < x.
Proof.
  intros H. apply Qnot_le_lt. intros Hle. apply Qle_bool_iff in Hle. congruence.
Qed.

Lemma insert_swap x y l :
  Forall2 Qeq (insert x (insert y l)) (insert y (insert x l)).
Proof.
  induction l as [|z l IH]; simpl.
  - destruct (Qle_bool x y) eqn:Hxy, (Qle_bool y x) eqn:Hyx;
      try apply Forall2_Qeq_refl.
    + apply Qle_bool_iff in Hxy, Hyx.
      assert (x == y) by (apply Qle_antisym; assumption).
      repeat constructor; [assumption | now symmetry].
    + apply Qle_bool_false in Hxy, Hyx. lra.
  - destruct (Qle_bool y z) eqn:Hyz, (Qle_bool x z) eqn:Hxz; simpl.
    + destruct (Qle_bool x y) eqn:Hxy, (Qle_bool y x) eqn:Hyx;
        rewrite ?Hxz, ?Hyz; try apply Forall2_Qeq_refl.
      * apply Qle_bool_iff in Hxy, Hyx.
        assert (x == y) by (apply Qle_antisym; assumption).
        constructor; [assumption|]. constructor; [now symmetry|].
        apply Forall2_Qeq_refl.
      * apply Qle_bool_false in Hxy, Hyx. lra.
    + assert (Hxy : Qle_bool x y = false).
      { apply not_true_is_false. intros H.
        apply Qle_bool_iff in H, Hyz. apply Qle_bool_false in Hxz. lra. }
      rewrite ?Hxy, ?Hxz, ?Hyz. apply Forall2_Qeq_refl.
    + assert (Hyx : Qle_bool y x = false).
      { apply not_true_is_false. intros H.
        apply Qle_bool_iff in H, Hxz. apply Qle_bool_false in Hyz. lra. }
      rewrite ?Hyx, ?Hxz, ?Hyz. apply Forall2_Qeq_refl.
    + rewrite ?Hxz, ?Hyz. constructor; [reflexivity | exact IH].
Qed.

Lemma sort_permutation v w :
  Permutation v w -> Forall2 Qeq (sort v) (sort w).
Proof.
  induction 1 as [|x v w _ IH|x y v|v w u _ IH1 _ IH2]; simpl.
  - constructor.
  - now apply insert_proper.
  - apply insert_swap.
  - eapply Forall2_Qeq_trans; eassumption.
Qed.

Lemma Forall2_Qeq_nth l l' i :
  Forall2 Qeq l l' -> nth i l 0 == nth i l' 0.
Proof.
  intros H. revert i. induction H as [|x y l l' Hxy H IH]; intros [|i]; simpl;
    try reflexivity; [exact Hxy | apply IH].
Qed.

Section Statistics.

Variable calculateMean : list Q -> Q.
Variable calculateSampleSD : list Q -> Q.

(** X17.  On a non-empty vector the five numbers stored by [add] are in
    order: min <= q1 <= median <= q3 <= max. *)
Theorem add_five_numbers_ordered (self : Summary) (v : list Q) :
  v <> [] ->
  exists s,
    add calculateMean calculateSampleSD self v = Some s /\
    min s <= q1 s /\ q1 s <= median s /\ median s <= q3 s /\ q3 s <= max s.
Proof.
  intros Hne.
  assert (Hlen : (0 < List.length v)%nat).
  { destruct v; [congruence | simpl; lia]. }
  unfold add. destruct (sort v) as [|x t] eqn:Hs.
  - now apply SummaryFacts.sort_nonempty in Hne.
  - eexists. split; [reflexivity|]. rewrite <- Hs.
    cbn [min max q1 median q3].
    rewrite !SummaryFacts.at_double_floor by discriminate.
    replace (Z.to_nat (Z.of_nat (List.length v) - 1))
      with (List.length v - 1)%nat by lia.
    pose proof (SummaryFacts.sort_sorted v) as Hsorted.
    pose proof (SummaryFacts.sort_length v) as Hsl.
    pose proof (SummaryFacts.rank_in_range (List.length v) (3 # 4) Hlen
                  ltac:(discriminate) eq_refl) as H3.
    pose proof (floor_rank_le (List.length v) (1 # 4) (1 # 2)
                  ltac:(discriminate) ltac:(discriminate)) as H12.
    pose proof (floor_rank_le (List.length v) (1 # 2) (3 # 4)
                  ltac:(discriminate) ltac:(discriminate)) as H23.
    repeat split; apply sorted_nth_le; try assumption; lia.
Qed.

(** X18.  Every observation of the vector lies between the [min] and the
    [max] stored by [add]. *)
Theorem add_min_max_bound (self : Summary) (v : list Q) (x : Q) :
  In x v ->
  exists s,
    add calculateMean calculateSampleSD self v = Some s /\
    min s <= x /\ x <= max s.
Proof.
  intros Hx.
  assert (Hne : v <> []) by (intros ->; destruct Hx).
  unfold add. destruct (sort v) as [|y t] eqn:Hs.
  - now apply SummaryFacts.sort_nonempty in Hne.
  - eexists. split; [reflexivity|]. rewrite <- Hs. cbn [min max].
    replace (Z.to_nat (Z.of_nat (List.length v) - 1))
      with (List.length v - 1)%nat by lia.
    pose proof (SummaryFacts.sort_sorted v) as Hsorted.
    pose proof (SummaryFacts.sort_length v) as Hsl.
    apply (Permutation_in _ (SummaryFacts.sort_perm v)) in Hx.
    destruct (In_nth _ _ 0 Hx) as (k & Hk & <-).
    split; apply sorted_nth_le; try assumption; lia.
Qed.

(** X19.  The order of the observations does not matter: on two vectors
    that are rearrangements of each other [add] stores the same count and
    equal min, q1, median, q3 and max. *)
Theorem add_permutation (self self' : Summary) (v w : list Q) :
  v <> [] -> Permutation v w ->
  exists s s',
    add calculateMean calculateSampleSD self v = Some s /\
    add calculateMean calculateSampleSD self' w = Some s' /\
    n s = n s' /\ min s == min s' /\ q1 s == q1 s' /\
    median s == median s' /\ q3 s == q3 s' /\ max s == max s'.
Proof.
  intros Hne Hperm.
  assert (Hne' : w <> []).
  { intros ->. apply Permutation_sym, Permutation_nil in Hperm. contradiction. }
  pose proof (sort_permutation v w Hperm) as Hsort.
  pose proof (Permutation_length Hperm) as Hlen.
  unfold add.
  destruct (sort v) as [|x t] eqn:Hs;
    [now apply SummaryFacts.sort_nonempty in Hne|].
  destruct (sort w) as [|x' t'] eqn:Hs';
    [now apply SummaryFacts.sort_nonempty in Hne'|].
  do 2 eexists. split; [reflexivity|]. split; [reflexivity|].
  cbn [n min max q1 median q3]. unfold at_double. rewrite <- Hlen.
  split; [reflexivity|].
  repeat split; now apply Forall2_Qeq_nth.
Qed.

End Statistics.

Lemma add_five_numbers_ordered_witness :
  let v := [7; 1; 4; 4; 9; 2] in
  v <> [] /\
  exists s,
    add arithmetic_mean sample_sd Summary_new v = Some s /\
    min s <= q1 s /\ q1 s <= median s /\ median s <= q3 s /\ q3 s <= max s.
Proof.
  intros v.
  assert (Hne : v <> []) by discriminate.
  split; [exact Hne|].
  exact (add_five_numbers_ordered arithmetic_mean sample_sd Summary_new v Hne).
Defined.

Lemma add_min_max_bound_witness :
  let v := [7; 1; 4; 4; 9; 2] in
  In 4 v /\
  exists s,
    add arithmetic_mean sample_sd Summary_new v = Some s /\
    min s <= 4 /\ 4 <= max s.
Proof.
  intros v.
  assert (Hin : In 4 v) by (simpl; right; right; left; reflexivity).
  split; [exact Hin|].
  exact (add_min_max_bound arithmetic_mean sample_sd Summary_new v 4 Hin).
Defined.

Lemma add_permutation_witness :
  let v := [3; 1; 2] in
  let w := [1; 3; 2] in
  v <> [] /\ Permutation v w /\
  exists s s',
    add arithmetic_mean sample_sd Summary_new v = Some s /\
    add arithmetic_mean sample_sd Summary_new w = Some s' /\
    n s = n s' /\ min s == min s' /\ q1 s == q1 s' /\
    median s == median s' /\ q3 s == q3 s' /\ max s == max s'.
Proof.
  intros v w.
  assert (Hne : v <> []) by discriminate.
  assert (Hperm : Permutation v w) by apply perm_swap.
  split; [exact Hne|]. split; [exact Hperm|].
  exact (add_permutation arithmetic_mean sample_sd Summary_new Summary_new
           v w Hne Hperm).
Defined.

End SummaryMore.

(** ** More on the report header *)

Module HeaderMore.

Lemma append_assoc (a b c : string) : (a +++ b) +++ c = a +++ b +++ c.
Proof. induction a as [|x a IH]; simpl; [reflexivity | now rewrite IH]. Qed.

Lemma append_nil_r (a : string) : a +++ EmptyString = a.
Proof. induction a as [|x a IH]; simpl; [reflexivity | now rewrite IH]. Qed.

Lemma for_each_none {S : Type} (body : S -> nat -> option S) l i :
  In i l -> (forall s, body s i = None) -> forall s, for_each body l s = None.
Proof.
  intros Hin Hnone. induction l as [|a l IH]; intros s; [destruct Hin|].
  simpl. destruct Hin as [-> | Hin]; [now rewrite Hnone|].
  destruct (body s a); simpl; [now apply IH | reflexivity].
Qed.

Section Format.

Variable fmt_d : Z -> string.
Variable fmt_g : Q -> string.

(** The row loop started at index [length L0], the rows before it written. *)
Lemma write_rows_from (S : list Summary) : forall L0 S0 L fp,
  List.length L0 = List.length S0 ->
  (List.length S <= List.length L)%nat ->
  for_each (write_row fmt_g (L0 ++ L) (S0 ++ S))
    (seq (List.length S0) (List.length S)) fp
  = Some (fp +++ rows_text fmt_g L S).
Proof.
  induction S as [|s S IH]; intros L0 S0 L fp Hlen Hle.
  - simpl. unfold rows_text. destruct L; simpl; now rewrite append_nil_r.
  - destruct L as [|l L]; [simpl in Hle; lia|].
    cbn [List.length seq for_each]. unfold write_row at 1.
    rewrite nth_error_app2 by lia. rewrite Hlen, Nat.sub_diag.
    rewrite nth_error_app2 by lia. rewrite Nat.sub_diag. cbn [nth_error bind].
    replace (L0 ++ l :: L) with ((L0 ++ [l]) ++ L)
      by (now rewrite <- app_assoc).
    replace (S0 ++ s :: S) with ((S0 ++ [s]) ++ S)
      by (now rewrite <- app_assoc).
    replace (Datatypes.S (List.length S0)) with (List.length (S0 ++ [s]))
      by (rewrite length_app; simpl; lia).
    rewrite IH.
    + unfold rows_text. cbn [combine map cat fold_right fst snd].
      now rewrite append_assoc.
    + rewrite !length_app. simpl. lia.
    + simpl in Hle. lia.
Qed.

Lemma write_rows labels ss fp :
  (List.length ss <= List.length labels)%nat ->
  for_each (write_row fmt_g labels ss) (seq 0 (List.length ss)) fp
  = Some (fp +++ rows_text fmt_g labels ss).
Proof.
  intros Hle. exact (write_rows_from ss [] [] labels fp eq_refl Hle).
Qed.

Lemma write_rows_short labels ss fp :
  (List.length labels < List.length ss)%nat ->
  for_each (write_row fmt_g labels ss) (seq 0 (List.length ss)) fp = None.
Proof.
  intros Hlt. apply (for_each_none _ _ (List.length labels)).
  - apply in_seq. lia.
  - intros s. unfold write_row.
    now rewrite (proj2 (nth_error_None labels (List.length labels))).
Qed.

(** The label loop past its first round: every label follows a comma. *)
Lemma write_labels_from (n : nat) : forall L0 L fp,
  (0 < List.length L0)%nat -> (n <= List.length L)%nat ->
  for_each (write_label (L0 ++ L)) (seq (List.length L0) n) fp
  = Some (fp +++ cat (map (fun l => "," +++ l) (firstn n L))).
Proof.
  induction n as [|n IH]; intros L0 L fp Hpos Hle.
  - simpl. now rewrite append_nil_r.
  - destruct L as [|l L]; [simpl in Hle; lia|].
    cbn [seq for_each]. unfold write_label at 1.
    replace (List.length L0 =? 0)%nat with false
      by (symmetry; apply Nat.eqb_neq; lia).
    rewrite nth_error_app2 by lia. rewrite Nat.sub_diag. cbn [nth_error bind].
    replace (L0 ++ l :: L) with ((L0 ++ [l]) ++ L)
      by (now rewrite <- app_assoc).
    replace (Datatypes.S (List.length L0)) with (List.length (L0 ++ [l]))
      by (rewrite length_app; simpl; lia).
    rewrite IH.
    + cbn [firstn map cat fold_right]. now rewrite !append_assoc.
    + rewrite length_app. simpl. lia.
    + simpl in Hle. lia.
Qed.

Lemma concat_comma l L :
  String.concat "," (l :: L) = l +++ cat (map (fun x => "," +++ x) L).
Proof.
  revert l. induction L as [|x L IH]; intros l.
  - simpl. now rewrite append_nil_r.
  - change (String.concat "," (l :: x :: L))
      with (l +++ "," +++ String.concat "," (x :: L)).
    rewrite IH. cbn [map cat fold_right]. now rewrite append_assoc.
Qed.

Lemma write_labels labels (n : nat) fp :
  (0 < n)%nat -> (n <= List.length labels)%nat ->
  for_each (write_label labels) (seq 0 n) fp
  = Some (fp +++ String.concat "," (firstn n labels)).
Proof.
  intros Hn Hle. destruct n as [|n]; [lia|].
  destruct labels as [|l L]; [simpl in Hle; lia|].
  cbn [seq for_each]. unfold write_label at 1. cbn [Nat.eqb nth_error bind].
  rewrite (write_labels_from n [l] L) by (simpl in *; lia).
  cbn [firstn]. now rewrite concat_comma, append_assoc.
Qed.

Lemma write_labels_short labels (n : nat) fp :
  (List.length labels < n)%nat ->
  for_each (write_label labels) (seq 0 n) fp = None.
Proof.
  intros Hlt. apply (for_each_none _ _ (List.length labels)).
  - apply in_seq. lia.
  - intros s. unfold write_label.
    now rewrite (proj2 (nth_error_None labels (List.length labels))).
Qed.

(** X21.  When there is a label for every phenotype summary and for every
    covariate summary, [outputHeader] appends the report to the text
    written so far and leaves that text as it is: six count lines with the
    sample count of the first phenotype (0 without one), the
    inverse-normal flag, the trait table and, only when a covariate
    summary is there, the comma-separated covariate labels and the
    covariate table. *)
Theorem outputHeader_text (h : SummaryHeader) (fp : string) :
  (List.length (pheno h) <= List.length (phenoLabel h))%nat ->
  (List.length (cov h) <= List.length (covLabel h))%nat ->
  outputHeader fmt_d fmt_g h fp = Some (fp +++ report fmt_d fmt_g h).
Proof.
  intros Hp Hc. unfold outputHeader, report.
  rewrite write_rows by exact Hp. cbn [bind].
  destruct (cov h) as [|c cs] eqn:Hcov.
  - rewrite !append_assoc, append_nil_r. reflexivity.
  - rewrite <- Hcov in *.
    rewrite write_labels; [|rewrite Hcov; simpl; lia | exact Hc].
    cbn [bind]. rewrite write_rows by exact Hc.
    rewrite !append_assoc. reflexivity.
Qed.

(** X22.  [outputHeader] reads a label out of bounds exactly when there
    are fewer phenotype labels than phenotype summaries or fewer covariate
    labels than covariate summaries. *)
Theorem outputHeader_fails_iff (h : SummaryHeader) (fp : string) :
  outputHeader fmt_d fmt_g h fp = None <->
  (List.length (phenoLabel h) < List.length (pheno h))%nat \/
  (List.length (covLabel h) < List.length (cov h))%nat.
Proof.
  split.
  - intros Hnone.
    destruct (Nat.lt_ge_cases (List.length (phenoLabel h))
                (List.length (pheno h))) as [Hp | Hp]; [now left|].
    destruct (Nat.lt_ge_cases (List.length (covLabel h))
                (List.length (cov h))) as [Hc | Hc]; [now right|].
    exfalso. revert Hnone. unfold outputHeader.
    rewrite write_rows by exact Hp. cbn [bind].
    destruct (cov h) as [|c cs] eqn:Hcov; [discriminate|].
    rewrite <- Hcov in *.
    rewrite write_labels; [|rewrite Hcov; simpl; lia | exact Hc].
    cbn [bind]. rewrite write_rows by exact Hc. discriminate.
  - intros [Hp | Hc]; unfold outputHeader.
    + now rewrite write_rows_short.
    + destruct (Nat.lt_ge_cases (List.length (phenoLabel h))
                  (List.length (pheno h))) as [Hp | Hp];
        [now rewrite write_rows_short|].
      rewrite write_rows by exact Hp. cbn [bind].
      destruct (cov h) as [|c cs] eqn:Hcov; [simpl in Hc; lia|].
      rewrite <- Hcov in *. now rewrite write_labels_short.
Qed.

End Format.

Section Statistics.

Variable calculateMean : list Q -> Q.
Variable calculateSampleSD : list Q -> Q.

Lemma record_columns_all m (l : list nat) : (0 < rows m)%nat -> forall h,
  exists h',
    for_each
      (fun self i =>
         recordCovariateColumn calculateMean calculateSampleSD
           (push_covLabel self (GetColumnLabel m i)) m i)
      l h = Some h' /\
    List.length (covLabel h') = (List.length (covLabel h) + List.length l)%nat /\
    List.length (cov h') = (List.length (cov h) + List.length l)%nat /\
    phenoLabel h' = phenoLabel h /\ pheno h' = pheno h /\
    transformedPheno h' = transformedPheno h /\
    inverseNormalized h' = inverseNormalized h.
Proof.
  intros Hr. induction l as [|i l IH]; intros h; simpl.
  - exists h. repeat split; lia.
  - unfold recordCovariateColumn at 1. fold (column m i).
    destruct (SummaryFacts.add_defined calculateMean calculateSampleSD
                Summary_new (column m i) (HeaderFacts.column_nonempty m i Hr))
      as [s Hs].
    rewrite Hs. cbn [bind].
    match goal with
    | |- context [for_each _ l ?h0] =>
        destruct (IH h0) as (h' & Hrun & Hl & Hc & Hpl & Hp & Ht & Hinv)
    end.
    cbn [phenoLabel pheno inverseNormalized transformedPheno covLabel cov
         push_covLabel] in *.
    rewrite !length_app in *. simpl in *.
    exists h'. repeat split; try assumption; lia.
Qed.

Lemma recordCovariate_clear self m :
  recordCovariate calculateMean calculateSampleSD self m
  = recordCovariate calculateMean calculateSampleSD (clear_cov self) m.
Proof. reflexivity. Qed.

(** X24.  Of two calls of [recordCovariate] in a row only the second
    counts: the header (or the failure) is the one the second call gives
    on the header before the first. *)
Theorem recordCovariate_overrides (self : SummaryHeader) (m1 m2 : Matrix) :
  (0 < rows m1)%nat \/ cols m1 = 0%nat ->
  exists h1,
    recordCovariate calculateMean calculateSampleSD self m1 = Some h1 /\
    recordCovariate calculateMean calculateSampleSD h1 m2
    = recordCovariate calculateMean calculateSampleSD self m2.
Proof.
  intros H1.
  assert (Hrun : exists h1,
            recordCovariate calculateMean calculateSampleSD self m1 = Some h1 /\
            phenoLabel h1 = phenoLabel self /\ pheno h1 = pheno self /\
            transformedPheno h1 = transformedPheno self /\
            inverseNormalized h1 = inverseNormalized self).
  { destruct H1 as [Hr | Hc]; unfold recordCovariate.
    - destruct (record_columns_all m1 (seq 0 (cols m1)) Hr (clear_cov self))
        as (h1 & Hrun & _ & _ & Hpl & Hp & Ht & Hinv).
      exists h1. now repeat split.
    - rewrite Hc. simpl. eexists. split; [reflexivity|]. now repeat split. }
  destruct Hrun as (h1 & Hrun & Hpl & Hp & Ht & Hinv).
  exists h1. split; [exact Hrun|].
  rewrite (recordCovariate_clear h1), (recordCovariate_clear self).
  f_equal. unfold clear_cov. now rewrite Hpl, Hp, Ht, Hinv.
Qed.

(** Every operation that builds a header keeps labels and summaries in
    step. *)
Lemma built_in_step h : built calculateMean calculateSampleSD h -> in_step h.
Proof.
  induction 1 as [|h label ph h' _ IH Hrec|h b _ IH|h m h' _ IH Hrec].
  - now split.
  - destruct IH as [IHp IHc]. unfold recordPhenotype in Hrec.
    destruct (add _ _ _ ph) as [s|]; [|discriminate].
    injection Hrec as <-. split; cbn; [|exact IHc].
    rewrite !length_app. simpl. lia.
  - exact IH.
  - destruct IH as [IHp IHc]. unfold recordCovariate in Hrec.
    destruct (Nat.eq_dec (rows m) 0) as [Hr0 | Hr0].
    + destruct (cols m) as [|k].
      * injection Hrec as <-. now split.
      * cbn [seq for_each] in Hrec.
        unfold recordCovariateColumn at 1 in Hrec.
        rewrite Hr0 in Hrec. discriminate Hrec.
    + destruct (record_columns_all m (seq 0 (cols m)) ltac:(lia) (clear_cov h))
        as (h'' & Hrun & Hl & Hc & Hpl & Hp & _).
      rewrite Hrun in Hrec. injection Hrec as <-.
      split; [now rewrite Hpl, Hp | now rewrite Hl, Hc].
Qed.

Section Format.

Variable fmt_d : Z -> string.
Variable fmt_g : Q -> string.

(** X25.  A header built from a new one with [recordPhenotype],
    [setInverseNormalize] and [recordCovariate] has a label for each of its
    summaries, and [outputHeader] writes its report. *)
Theorem built_renders (h : SummaryHeader) (fp : string) :
  built calculateMean calculateSampleSD h ->
  in_step h /\
  outputHeader fmt_d fmt_g h fp = Some (fp +++ report fmt_d fmt_g h).
Proof.
  intros Hb. pose proof (built_in_step h Hb) as Hstep.
  split; [exact Hstep|]. destruct Hstep as [Hp Hc].
  unfold outputHeader, report.
  rewrite write_rows by lia. cbn [bind].
  destruct (cov h) as [|c cs] eqn:Hcov.
  - rewrite !append_assoc, append_nil_r. reflexivity.
  - rewrite <- Hcov in *.
    rewrite write_labels; [|rewrite Hcov; simpl; lia | lia].
    cbn [bind]. rewrite write_rows by lia.
    rewrite !append_assoc. reflexivity.
Qed.

(** X26.  [recordCovariateColumn] called on its own appends the summary of
    the column to the covariate summaries and no label; when labels and
    summaries were in step before, [outputHeader] afterwards reads a
    covariate label out of bounds. *)
Theorem recordCovariateColumn_unlabelled (self : SummaryHeader) (m : Matrix)
    (col : nat) (fp : string) :
  (0 < rows m)%nat ->
  exists s h',
    add calculateMean calculateSampleSD Summary_new (column m col) = Some s /\
    recordCovariateColumn calculateMean calculateSampleSD self m col
    = Some h' /\
    cov h' = cov self ++ [s] /\ covLabel h' = covLabel self /\
    phenoLabel h' = phenoLabel self /\ pheno h' = pheno self /\
    inverseNormalized h' = inverseNormalized self /\
    (in_step self -> outputHeader fmt_d fmt_g h' fp = None).
Proof.
  intros Hr.
  destruct (SummaryFacts.add_defined calculateMean calculateSampleSD
              Summary_new (column m col) (HeaderFacts.column_nonempty m col Hr))
    as [s Hs].
  exists s. eexists. split; [exact Hs|].
  unfold recordCovariateColumn. fold (column m col). rewrite Hs. cbn [bind].
  split; [reflexivity|]. cbn [cov covLabel phenoLabel pheno inverseNormalized].
  do 5 (split; [reflexivity|]).
  intros [Hp Hc]. unfold outputHeader.
  cbn [cov covLabel phenoLabel pheno inverseNormalized].
  rewrite write_rows by lia. cbn [bind].
  destruct (cov self ++ [s]) as [|c cs] eqn:Hcov;
    [now destruct (cov self)|].
  rewrite <- Hcov. rewrite write_labels_short; [reflexivity|].
  rewrite length_app. simpl. lia.
Qed.

End Format.

End Statistics.
Lemma outputHeader_text_witness :
  (List.length (pheno used_header) <= List.length (phenoLabel used_header))%nat
  /\
  (List.length (cov used_header) <= List.length (covLabel used_header))%nat /\
  outputHeader print_d print_g used_header "#"
  = Some ("#" +++ report print_d print_g used_header).
Proof.
  assert (Hp : (List.length (pheno used_header)
                <= List.length (phenoLabel used_header))%nat) by (simpl; lia).
  assert (Hc : (List.length (cov used_header)
                <= List.length (covLabel used_header))%nat) by (simpl; lia).
  split; [exact Hp|]. split; [exact Hc|].
  exact (outputHeader_text print_d print_g used_header "#" Hp Hc).
Defined.

Lemma recordCovariate_overrides_witness :
  ((0 < rows age_matrix)%nat \/ cols age_matrix = 0%nat) /\
  exists h1,
    recordCovariate arithmetic_mean sample_sd used_header age_matrix
    = Some h1 /\
    recordCovariate arithmetic_mean sample_sd h1 empty_matrix
    = recordCovariate arithmetic_mean sample_sd used_header empty_matrix.
Proof.
  assert (H : (0 < rows age_matrix)%nat \/ cols age_matrix = 0%nat)
    by (left; simpl; lia).
  split; [exact H|].
  exact (recordCovariate_overrides arithmetic_mean sample_sd used_header
           age_matrix empty_matrix H).
Defined.

Lemma built_renders_witness :
  exists h,
    recorded_header = Some h /\
    built arithmetic_mean sample_sd h /\
    in_step h /\
    outputHeader print_d print_g h ""
    = Some ("" +++ report print_d print_g h).
Proof.
  destruct (recordPhenotype arithmetic_mean sample_sd SummaryHeader_new "Y"
              [3; 1; 2; 4]) as [h1|] eqn:E1;
    [|vm_compute in E1; discriminate E1].
  destruct (recordCovariate arithmetic_mean sample_sd
              (setInverseNormalize h1 true) age_matrix) as [h2|] eqn:E2.
  - assert (Hb : built arithmetic_mean sample_sd h2).
    { apply (built_covariate _ _ (setInverseNormalize h1 true) age_matrix h2);
        [|exact E2].
      apply built_flag.
      apply (built_phenotype _ _ SummaryHeader_new "Y" [3; 1; 2; 4] h1);
        [apply built_new | exact E1]. }
    exists h2. split; [unfold recorded_header; rewrite E1; exact E2|].
    split; [exact Hb|].
    exact (built_renders arithmetic_mean sample_sd print_d print_g h2 "" Hb).
  - exfalso.
    destruct (HeaderFacts.record_columns arithmetic_mean sample_sd age_matrix
                (seq 0 (cols age_matrix)) ltac:(simpl; lia)
                (clear_cov (setInverseNormalize h1 true)))
      as (h' & Hrun & _).
    unfold recordCovariate in E2. rewrite Hrun in E2. discriminate E2.
Defined.

Lemma recordCovariateColumn_unlabelled_witness :
  (0 < rows age_matrix)%nat /\
  exists s h',
    add arithmetic_mean sample_sd Summary_new (column age_matrix 0) = Some s /\
    recordCovariateColumn arithmetic_mean sample_sd SummaryHeader_new
      age_matrix 0 = Some h' /\
    cov h' = [s] /\ covLabel h' = [] /\
    outputHeader print_d print_g h' "" = None.
Proof.
  assert (Hr : (0 < rows age_matrix)%nat) by (simpl; lia).
  split; [exact Hr|].
  destruct (recordCovariateColumn_unlabelled arithmetic_mean sample_sd
              print_d print_g SummaryHeader_new age_matrix 0 "" Hr)
    as (s & h' & Hs & Hrun & Hcov & Hlab & _ & _ & _ & Hnone).
  exists s, h'. split; [exact Hs|]. split; [exact Hrun|].
  split; [exact Hcov|]. split; [exact Hlab|].
  apply Hnone. split; reflexivity.
Defined.

End HeaderMore.
